(** * siplus-cli: the command-line front end of the SIPlus template engine

    A shallow embedding of [src/main.cpp]: the output wrapper
    [stream_wrapper], the argument record [Args], the helpers [assert],
    [read_file] and [parse_val], the argument scanner [parse_args], the crash
    hook [signal_handler] and the orchestration in [main].

    The program is effectful: it throws [std::runtime_error], calls
    [std::exit], reads and opens files, and writes to three streams.  These
    effects are made explicit by a small state-and-exception monad [M] whose
    state is the [Args] object (passed by reference in the source) together
    with the trace of observable events.  The SIPlus library and the
    operating system are parameters of the development. *)

From Stdlib Require Import Ascii.
From stdpp Require Import base strings list gmap pretty.

Set Default Proof Using "Type".

(** ** Characters that cannot be written inside a literal *)

Definition nl : string := String (ascii_of_nat 10) "".
Definition tab : string := String (ascii_of_nat 9) "".
Definition dq : string := String (ascii_of_nat 34) "".

(** ** The template engine (library [siplus/siplus.h])

    Only its interface is used by the program.  [except] is the outcome of a
    library call that may throw a [std::exception]. *)

Inductive except (A : Type) : Type :=
  | Value (a : A)
  | Raise (what : string).
Arguments Value {A} a.
Arguments Raise {A} what.

Class Engine := {
  (** [SIPlus::text::UnknownDataTypeContainer] *)
  Data : Type;
  (** the default-constructed container *)
  null_data : Data;
  (** [SIPlus::text::make_data] *)
  make_data : string → Data;
  (** [SIPlus::text::TextConstructor] *)
  TextConstructor : Type;
  (** [Parser::get_interpolation(input, opts)], [opts.globals] being the
      list of known names *)
  get_interpolation : string → list string → except TextConstructor;
  (** [constructor.construct_with(ctx)]: the context is the default value
      and the bindings added with [with] *)
  construct_with : TextConstructor → Data → list (string * Data) → except string;
}.

(** ** Observable events *)

Inductive target : Type :=
  | Cout
  | Cerr
  | File (path : string).

Inductive event : Type :=
  | EvRead (file : string) (ok : bool)
  | EvNew (file : string) (ok : bool)
  | EvDelete (file : string)
  | EvPut (t : target) (text : string) (ok : bool)
  | EvFlush (t : target) (ok : bool)
  | EvCompile (input : string) (globals : list string)
  | EvRender
  | EvStackTrace.

(** ** The operating system

    Its answers may depend on everything the process did so far. *)

Record World := {
  (** [std::ifstream{file}] followed by reading the whole buffer: the
      contents, or [None] when the file could not be opened *)
  ifstream_contents : list event → string → option string;
  (** whether [std::ofstream{file}] manages to open the file *)
  ofstream_opens : list event → string → bool;
  (** whether inserting the text into a stream in good state succeeds *)
  ostream_accepts : list event → target → string → bool;
}.

(** ** Observations on a trace *)

#[export] Instance target_eq_dec : EqDecision target.
Proof. solve_decision. Defined.

(** The [std::ofstream] objects created with [new], with whether the file
    opened, and the ones destroyed with [delete], in order. *)
Definition opened (tr : list event) : list (string * bool) :=
  omap (λ e, match e with EvNew file ok => Some (file, ok) | _ => None end) tr.
Definition deletes (tr : list event) : list string :=
  omap (λ e, match e with EvDelete file => Some file | _ => None end) tr.

(** The operands inserted into the stream [t], whether or not they went
    through, and the ones that did. *)
Definition inserted (t : target) (tr : list event) : list string :=
  omap (λ e, match e with
             | EvPut t' text _ => if decide (t' = t) then Some text else None
             | _ => None
             end) tr.
Definition written (t : target) (tr : list event) : list string :=
  omap (λ e, match e with
             | EvPut t' text true => if decide (t' = t) then Some text else None
             | _ => None
             end) tr.

(** The requests made to the engine: the templates it was asked to compile
    with the known names, and one entry for each rendering. *)
Definition compilations (tr : list event) : list (string * list string) :=
  omap (λ e, match e with EvCompile tpl names => Some (tpl, names) | _ => None end) tr.
Definition renderings (tr : list event) : list unit :=
  omap (λ e, match e with EvRender => Some tt | _ => None end) tr.

(** The files the process tried to read, with whether they opened. *)
Definition reads (tr : list event) : list (string * bool) :=
  omap (λ e, match e with EvRead file ok => Some (file, ok) | _ => None end) tr.

(** ** [stream_wrapper] and [Args] *)

(** The wrapped [std::ostream&]: where it writes and whether it is still
    in good state. *)
Record ostream := { os_target : target; os_good : bool }.

(** The only deleter the program ever installs is the closure
    [[ptr]() { delete ptr; }]; it is represented by the captured pointer,
    named after the file the [std::ofstream] was created for. *)
Record stream_wrapper := {
  ostream_ : ostream;
  deleter_ : option string;
}.

(** ** Outcomes of a computation

    A computation returns, throws a [std::runtime_error] carrying a message,
    or terminates the process through [std::exit]. *)

Inductive result (A : Type) : Type :=
  | Returned (a : A)
  | Threw (what : string)
  | Exited (code : Z).
Arguments Returned {A} a.
Arguments Threw {A} what.
Arguments Exited {A} code.

Section Program.
Context `{Engine} (w : World).

Record Args := {
  input : string;
  out : option stream_wrapper;
  default_value : Data;
  args : gmap string Data;
}.

(** [Args args;] *)
Definition Args_default : Args :=
  {| input := ""; out := None; default_value := null_data; args := ∅ |}.

Definition set_input (a : Args) (s : string) : Args :=
  {| input := s; out := out a; default_value := default_value a; args := args a |}.
Definition set_out (a : Args) (o : option stream_wrapper) : Args :=
  {| input := input a; out := o; default_value := default_value a; args := args a |}.
Definition set_default_value (a : Args) (d : Data) : Args :=
  {| input := input a; out := out a; default_value := d; args := args a |}.
Definition set_args (a : Args) (m : gmap string Data) : Args :=
  {| input := input a; out := out a; default_value := default_value a; args := m |}.

(** ** The monad *)

Record state := { st_args : Args; st_trace : list event }.

Definition M (A : Type) : Type := state → state * result A.

Definition ret {A} (a : A) : M A := λ s, (s, Returned a).

Definition bind {A B} (f : A → M B) (m : M A) : M B :=
  λ s, match m s with
       | (s', Returned a) => f a s'
       | (s', Threw what) => (s', Threw what)
       | (s', Exited code) => (s', Exited code)
       end.

#[export] Instance M_ret : MRet M := @ret.
#[export] Instance M_bind : MBind M := @bind.

(** [throw std::runtime_error{msg}] *)
Definition throw {A} (msg : string) : M A := λ s, (s, Threw msg).
(** [std::exit(code)] *)
Definition exit {A} (code : Z) : M A := λ s, (s, Exited code).

Definition emit (e : event) : M unit :=
  λ s, ({| st_args := st_args s; st_trace := st_trace s ++ [e] |}, Returned tt).
Definition get_args : M Args := λ s, (s, Returned (st_args s)).
Definition modify_args (f : Args → Args) : M unit :=
  λ s, ({| st_args := f (st_args s); st_trace := st_trace s |}, Returned tt).
Definition get_trace : M (list event) := λ s, (s, Returned (st_trace s)).

(** ** Streams

    Every insertion is recorded with the text and with whether the
    characters went through: a stream that is not in good state ignores the
    insertion, and a failed insertion leaves the stream in a failed state.
    No stream of the program has exceptions enabled. *)

(** [os << text] *)
Definition put (os : ostream) (text : string) : M ostream :=
  tr ← get_trace;
  let ok := os_good os && ostream_accepts w tr (os_target os) text in
  emit (EvPut (os_target os) text ok);;
  mret {| os_target := os_target os; os_good := ok |}.

(** [os << t1 << t2 << ...] *)
Fixpoint put_all (os : ostream) (texts : list string) : M ostream :=
  match texts with
  | [] => mret os
  | t :: ts => os' ← put os t; put_all os' ts
  end.

(** [os << std::flush] *)
Definition flush (os : ostream) : M ostream :=
  emit (EvFlush (os_target os) (os_good os));; mret os.

(** [os << std::endl] *)
Definition endl (os : ostream) : M ostream :=
  os' ← put os nl; flush os'.

(** [std::cout] and [std::cerr] as the process finds them *)
Definition cout : ostream := {| os_target := Cout; os_good := true |}.
Definition cerr : ostream := {| os_target := Cerr; os_good := true |}.

(** [~stream_wrapper()] *)
Definition destroy_stream_wrapper (sw : stream_wrapper) : M unit :=
  match deleter_ sw with
  | Some ptr => emit (EvDelete ptr)
  | None => mret tt
  end.

(** Resetting a [std::unique_ptr<stream_wrapper>]: the object it owned, if
    any, is destroyed. *)
Definition destroy_out (o : option stream_wrapper) : M unit :=
  match o with
  | Some sw => destroy_stream_wrapper sw
  | None => mret tt
  end.

(** The events of destroying what a [unique_ptr<stream_wrapper>] owns. *)
Definition release (o : option stream_wrapper) : list event :=
  match o with
  | Some {| deleter_ := Some ptr |} => [EvDelete ptr]
  | _ => []
  end.

(** [args.out = std::make_unique<stream_wrapper>(...)] *)
Definition assign_out (sw : stream_wrapper) : M unit :=
  a ← get_args;
  modify_args (λ a, set_out a (Some sw));;
  destroy_out (out a).

(** ** [help] *)

(** The operands of the insertion chain, one per source line. *)
Definition help_lines : list string := [
  "siplus: SIPlus String Interpolation CLI Utility" +:+ nl;
  "usage: siplus <template> -d <default> [-v VAL=<value>]" +:+ nl;
  nl;
  "Arguments:" +:+ nl;
  tab +:+ "-h" +:+ tab +:+ "--help" +:+ tab +:+ tab +:+ tab +:+
    "Show this help message." +:+ nl;
  tab +:+ "-i" +:+ tab +:+ "--input <file>" +:+ tab +:+ tab +:+
    "Use input file instead of raw template text." +:+ nl;
  tab +:+ "-v" +:+ tab +:+ "--val <name>=<value>" +:+ tab +:+
    "Set value for use in template. This will be made available as a global." +:+ nl;
  tab +:+ "-d" +:+ tab +:+ "--default <value>" +:+ tab +:+
    "Set value for use in template. This will be made available as a the default value." +:+ nl;
  tab +:+ "-o" +:+ tab +:+ "--output <file>" +:+ tab +:+ tab +:+
    "Output to file instead of to stdout." +:+ nl;
  nl;
  "Examples:";
  "    siplus " +:+ dq +:+ "Hello, {$first} {$last}" +:+ dq +:+
    " -v first=john -v last=doe" +:+ nl;
  "    # Hello, john doe" +:+ nl;
  nl;
  "    siplus " +:+ dq +:+ "Hello, {.}" +:+ dq +:+ " -d world" +:+ nl;
  "    # Hello, world" +:+ nl;
  nl;
  "    siplus -i hello.txt -v first=world" +:+ nl;
  "    # Hello, world" +:+ nl
].

Definition help : M unit :=
  os ← put_all cout help_lines;
  endl os;; mret tt.

(** ** [assert], [read_file], [parse_val] *)

Definition assert (test : bool) (msg : string) : M unit :=
  if test then mret tt else throw msg.

(** A stream that failed to open contributes no characters. *)
Definition read_file (file : string) : M string :=
  tr ← get_trace;
  match ifstream_contents w tr file with
  | Some s => emit (EvRead file true);; mret s
  | None => emit (EvRead file false);; mret ""
  end.

(** [std::string::find(char)]: [None] stands for [npos]. *)
Fixpoint find (c : ascii) (s : string) : option nat :=
  match s with
  | EmptyString => None
  | String a s' => if Ascii.eqb a c then Some 0 else S <$> find c s'
  end.

(** [s.substr(pos, n)] and [s.substr(pos)], for [pos] within the string. *)
Definition substr (s : string) (pos n : nat) : string := String.substring pos n s.
Definition substr_from (s : string) (pos : nat) : string :=
  String.substring pos (String.length s - pos) s.

Definition parse_val (val : string) : M (string * string) :=
  match find "="%char val with
  | None => throw ("Could not find value in " +:+ val)
  | Some idx => mret (substr val 0 idx, substr_from val (idx + 1))
  end.

(** ** [parse_args] *)

(** The three local flags of [parse_args]. *)
Record locals := {
  input_specified : bool;
  output_specified : bool;
  default_specified : bool;
}.

Definition locals_init : locals :=
  {| input_specified := false; output_specified := false; default_specified := false |}.
Definition set_input_specified (l : locals) : locals :=
  {| input_specified := true; output_specified := output_specified l;
     default_specified := default_specified l |}.
Definition set_output_specified (l : locals) : locals :=
  {| input_specified := input_specified l; output_specified := true;
     default_specified := default_specified l |}.
Definition set_default_specified (l : locals) : locals :=
  {| input_specified := input_specified l; output_specified := output_specified l;
     default_specified := true |}.

Definition is_help (val : string) : bool := String.eqb val "-h" || String.eqb val "--help".
Definition is_input (val : string) : bool := String.eqb val "-i" || String.eqb val "--input".
Definition is_val (val : string) : bool := String.eqb val "-v" || String.eqb val "--val".
Definition is_default (val : string) : bool := String.eqb val "-d" || String.eqb val "--default".
Definition is_output (val : string) : bool := String.eqb val "-o" || String.eqb val "--output".

(** The tokens the scanner recognises as flags. *)
Definition is_flag (val : string) : bool :=
  is_help val || is_input val || is_val val || is_default val || is_output val.

(** The [for] loop over [argv[1..argc)].  [toks] is what remains of the
    vector from index [i] on; [assert(i + 1 < argc, ...)] followed by
    [argv[++i]] is the match on the tokens after the current one. *)
Fixpoint parse_loop (toks : list string) (l : locals) : M locals :=
  match toks with
  | [] => mret l
  | val :: rest =>
    if is_help val then
      help;; exit 0
    else if is_input val then
      assert (negb (input_specified l)) "input was already specified, -i was unexpected";;
      match rest with
      | [] => throw "expected argument for -i"
      | file :: rest' =>
        s ← read_file file;
        modify_args (λ a, set_input a s);;
        parse_loop rest' (set_input_specified l)
      end
    else if is_val val then
      match rest with
      | [] => throw "expected argument for -v"
      | arg :: rest' =>
        '(name, value) ← parse_val arg;
        a ← get_args;
        assert (bool_decide (args a !! name = None))
               ("value " +:+ name +:+ " was already specified");;
        modify_args (λ a, set_args a (<[name := make_data value]> (args a)));;
        parse_loop rest' l
      end
    else if is_default val then
      assert (negb (default_specified l)) "default value already specified";;
      match rest with
      | [] => throw "expected argument for -d"
      | arg :: rest' =>
        modify_args (λ a, set_default_value a (make_data arg));;
        parse_loop rest' (set_default_specified l)
      end
    else if is_output val then
      assert (negb (output_specified l)) "output already specified";;
      match rest with
      | [] => throw "expected argument for -o"
      | file :: rest' =>
        tr ← get_trace;
        let ok := ofstream_opens w tr file in
        emit (EvNew file ok);;
        assign_out {| ostream_ := {| os_target := File file; os_good := ok |};
                      deleter_ := Some file |};;
        parse_loop rest' (set_output_specified l)
      end
    else if negb (input_specified l) then
      modify_args (λ a, set_input a val);;
      parse_loop rest (set_input_specified l)
    else
      throw ("Unknown extra parameter " +:+ val)
  end.

(** [argv] is the whole vector, program name included. *)
Definition parse_args (argv : list string) : M unit :=
  l ← parse_loop (drop 1 argv) locals_init;
  (if negb (output_specified l)
   then assign_out {| ostream_ := cout; deleter_ := None |}
   else mret tt);;
  assert (input_specified l) "No input specified (-h for help)";;
  assert (default_specified l) "No default value specified".

(** ** The loop, one iteration at a time

    A relational reading of the body of the loop, proved below to agree
    with [parse_loop]. *)

(** What one iteration of the loop does when it neither prints the usage
    nor fails: the tokens left, the flags and the state after it. *)
Inductive advances : list string → locals → state → list string → locals → state → Prop :=
  | adv_input val file rest l s :
      is_input val = true → input_specified l = false →
      let contents := ifstream_contents w (st_trace s) file in
      advances (val :: file :: rest) l s rest (set_input_specified l)
        {| st_args := set_input (st_args s) (default "" contents);
           st_trace := st_trace s ++ [EvRead file (bool_decide (is_Some contents))] |}
  | adv_val val arg rest l s idx :
      is_val val = true → find "="%char arg = Some idx →
      args (st_args s) !! substr arg 0 idx = None →
      advances (val :: arg :: rest) l s rest l
        {| st_args := set_args (st_args s)
                        (<[substr arg 0 idx := make_data (substr_from arg (idx + 1))]>
                           (args (st_args s)));
           st_trace := st_trace s |}
  | adv_default val arg rest l s :
      is_default val = true → default_specified l = false →
      advances (val :: arg :: rest) l s rest (set_default_specified l)
        {| st_args := set_default_value (st_args s) (make_data arg);
           st_trace := st_trace s |}
  | adv_output val file rest l s :
      is_output val = true → output_specified l = false →
      let ok := ofstream_opens w (st_trace s) file in
      advances (val :: file :: rest) l s rest (set_output_specified l)
        {| st_args := set_out (st_args s)
                        (Some {| ostream_ := {| os_target := File file; os_good := ok |};
                                 deleter_ := Some file |});
           st_trace := (st_trace s ++ [EvNew file ok]) ++ release (out (st_args s)) |}
  | adv_bare val rest l s :
      is_flag val = false → input_specified l = false →
      advances (val :: rest) l s rest (set_input_specified l)
        {| st_args := set_input (st_args s) val; st_trace := st_trace s |}.

(** The iterations that throw, with the message of the exception. *)
Inductive rejects : string → list string → locals → Args → string → Prop :=
  | rej_input_again val rest l a :
      is_input val = true → input_specified l = true →
      rejects val rest l a "input was already specified, -i was unexpected"
  | rej_input_arg val l a :
      is_input val = true → input_specified l = false →
      rejects val [] l a "expected argument for -i"
  | rej_val_arg val l a :
      is_val val = true →
      rejects val [] l a "expected argument for -v"
  | rej_val_equals val arg rest l a :
      is_val val = true → find "="%char arg = None →
      rejects val (arg :: rest) l a ("Could not find value in " +:+ arg)
  | rej_val_again val arg rest l a idx :
      is_val val = true → find "="%char arg = Some idx →
      is_Some (args a !! substr arg 0 idx) →
      rejects val (arg :: rest) l a ("value " +:+ substr arg 0 idx +:+ " was already specified")
  | rej_default_again val rest l a :
      is_default val = true → default_specified l = true →
      rejects val rest l a "default value already specified"
  | rej_default_arg val l a :
      is_default val = true → default_specified l = false →
      rejects val [] l a "expected argument for -d"
  | rej_output_again val rest l a :
      is_output val = true → output_specified l = true →
      rejects val rest l a "output already specified"
  | rej_output_arg val l a :
      is_output val = true → output_specified l = false →
      rejects val [] l a "expected argument for -o"
  | rej_extra val rest l a :
      is_flag val = false → input_specified l = true →
      rejects val rest l a ("Unknown extra parameter " +:+ val).

(** ** [signal_handler] *)

Definition SIGABRT : Z := 6.
Definition SIGSEGV : Z := 11.

Definition signal_handler {A} (signal : Z) : M A :=
  put_all cout ["Signal "; pretty signal; " caught. Death imminent."];;
  emit EvStackTrace;;
  exit 1.

(** The registrations made by the first two statements of [main], and what
    the delivery of a signal to the process runs. *)
Definition handled_signals : list Z := [SIGSEGV; SIGABRT].

Definition deliver {A} (signal : Z) : option (M A) :=
  if bool_decide (signal ∈ handled_signals) then Some (signal_handler signal) else None.

(** ** [main] *)

(** [std::cerr << prefix << e.what() << std::endl] *)
Definition report (prefix what : string) : M unit :=
  os ← put_all cerr [prefix; what];
  endl os;; mret tt.

(** The statements of [main] after the first [try] block.  The iteration
    order of the [std::unordered_map] is the order of [map_to_list]; the
    context builder receives the default value and every binding, and only
    the two calls inside the [try] blocks may throw.  Dereferencing a null
    [args.out] is the segmentation fault it would be; [parse_args_sink]
    below shows that [args.out] is never null at that point. *)
Definition run_template : M Z :=
  a ← get_args;
  let globals := (map_to_list (args a)).*1 in
  emit (EvCompile (input a) globals);;
  match get_interpolation (input a) globals with
  | Raise what => report "parse error: " what;; mret 1
  | Value constructor =>
    emit EvRender;;
    match construct_with constructor (default_value a) (map_to_list (args a)) with
    | Raise what => report "execution error: " what;; mret 1
    | Value text =>
      match out a with
      | None => signal_handler SIGSEGV
      | Some sw =>
        os ← put (ostream_ sw) text;
        os' ← flush os;
        modify_args (λ a, set_out a (Some {| ostream_ := os'; deleter_ := deleter_ sw |}));;
        mret 0
      end
    end
  end%Z.

Definition main_body (argv : list string) : M Z :=
  λ s, match parse_args argv s with
       | (s', Returned _) => run_template s'
       | (s', Threw what) => (report "error: " what;; mret 2%Z) s'
       | (s', Exited code) => (s', Exited code)
       end.

(** Leaving [main] by a [return] destroys the local [args], hence the
    wrapper it owns; [std::exit] does not unwind. *)
Definition main (argv : list string) : M Z :=
  code ← main_body argv;
  a ← get_args;
  destroy_out (out a);;
  mret code.

Definition initial : state := {| st_args := Args_default; st_trace := [] |}.

(** The exit status and the trace of a finished process. *)
Definition status (r : state * result Z) : option Z :=
  match r.2 with
  | Returned code => Some code
  | Exited code => Some code
  | Threw _ => None
  end.

Definition trace {A} (r : state * result A) : list event := st_trace r.1.

End Program.

Arguments Args {_}.
Arguments state {_}.
Arguments M {_} A.

(** ** Well-formed argument vectors

    The options of a command line, and the tokens that spell them.  A
    [-v] option is spelt [NAME=VALUE], the name being free of [=]. *)

Inductive item : Type :=
  | Template (text : string)
  | InputFile (flag file : string)
  | DefaultValue (flag value : string)
  | NamedValue (flag name value : string)
  | OutputFile (flag file : string).

Definition tokens_of (it : item) : list string :=
  match it with
  | Template text => [text]
  | InputFile flag file => [flag; file]
  | DefaultValue flag value => [flag; value]
  | NamedValue flag name value => [flag; name +:+ "=" +:+ value]
  | OutputFile flag file => [flag; file]
  end.

Definition tokens (its : list item) : list string := its ≫= tokens_of.

Definition well_formed (it : item) : Prop :=
  match it with
  | Template text => is_flag text = false
  | InputFile flag _ => is_input flag = true
  | DefaultValue flag _ => is_default flag = true
  | NamedValue flag name _ => is_val flag = true ∧ find "="%char name = None
  | OutputFile flag _ => is_output flag = true
  end.

Definition gives_input (it : item) : bool :=
  match it with Template _ | InputFile _ _ => true | _ => false end.
Definition gives_default (it : item) : bool :=
  match it with DefaultValue _ _ => true | _ => false end.
Definition gives_output (it : item) : bool :=
  match it with OutputFile _ _ => true | _ => false end.

Definition count (p : item → bool) (its : list item) : nat :=
  length (List.filter p its).

(** The named values, in order. *)
Definition bindings (its : list item) : list (string * string) :=
  omap (λ it, match it with NamedValue _ name value => Some (name, value) | _ => None end) its.

(** Exactly one template, inline or from a file; exactly one default; at
    most one output file; names pairwise distinct. *)
Record valid (its : list item) : Prop := {
  valid_well_formed : Forall well_formed its;
  valid_input : count gives_input its = 1;
  valid_default : count gives_default its = 1;
  valid_output : count gives_output its ≤ 1;
  valid_names : NoDup (bindings its).*1;
}.

(** ** Vocabulary of the statements

    States, traces and maps that the lemmas speak about. *)

Section Vocabulary.
Context `{Engine}.
Implicit Types (l : locals) (s : state).

(** The state after more events. *)
Definition add_events s (evs : list event) : state :=
  {| st_args := st_args s; st_trace := st_trace s ++ evs |}.

(** [evs] is a sequence of insertions of [texts] into the stream [t]. *)
Definition puts_of (t : target) (texts : list string) (evs : list event) : Prop :=
  Forall2 (λ text e, ∃ ok, e = EvPut t text ok) texts evs.

(** The events of the scanner proper. *)
Definition scan_event (e : event) : Prop :=
  match e with
  | EvRead _ _ | EvNew _ _ | EvDelete _ => True
  | _ => False
  end.

(** The output sink and the files opened for it.  While [-o] has not been
    seen, [args.out] is null and nothing was opened; afterwards it owns the
    one stream that was opened, whose state is the outcome of the opening.
    Nothing is released during the scan. *)
Definition sink_inv l s : Prop :=
  deletes (st_trace s) = [] ∧
  match out (st_args s) with
  | None => output_specified l = false ∧ opened (st_trace s) = []
  | Some sw =>
      output_specified l = true ∧
      ∃ file ok, sw = {| ostream_ := {| os_target := File file; os_good := ok |};
                         deleter_ := Some file |} ∧
                 opened (st_trace s) = [(file, ok)]
  end.

(** The state in which [parse_args] makes its two final checks. *)
Definition with_default_sink l s : state :=
  if output_specified l then s
  else {| st_args := set_out (st_args s) (Some {| ostream_ := cout; deleter_ := None |});
          st_trace := st_trace s ++ release (out (st_args s)) |}.

(** The streams that [args.out] owns through the deleter of its wrapper. *)
Definition owned (o : option stream_wrapper) : list string :=
  match o with
  | Some {| deleter_ := Some ptr |} => [ptr]
  | _ => []
  end.

(** What holds of the sink once [parse_args] is over, however it ended:
    nothing has been released, and what was opened is what [args.out]
    owns. *)
Definition balanced s : Prop :=
  deletes (st_trace s) = [] ∧ (opened (st_trace s)).*1 = owned (out (st_args s)).

(** After a successful [parse_args] the sink is standard output, with
    nothing opened, or the one file stream that was opened. *)
Definition sink_ready s : Prop :=
  ∃ sw, out (st_args s) = Some sw ∧
    ((sw = {| ostream_ := cout; deleter_ := None |} ∧ opened (st_trace s) = []) ∨
     (∃ file ok, sw = {| ostream_ := {| os_target := File file; os_good := ok |};
                         deleter_ := Some file |} ∧
                 opened (st_trace s) = [(file, ok)])).

(** The names passed to the engine as [opts.globals]. *)
Definition globals_of (a : Args) : list string := (map_to_list (args a)).*1.

(** The map described by the [-v] options of a vector. *)
Definition bound (its : list item) : gmap string Data :=
  list_to_map ((λ b, (b.1, make_data b.2)) <$> bindings its).

End Vocabulary.

(** ** A sample engine and sample worlds

    They serve to run the program on concrete argument vectors.  The sample
    engine rejects the template [{] at compilation, renders [{.}] as the
    default value and [{$x}] as the value bound to [x] (failing when there
    is none), and renders any other template as itself. *)

Module Sample.

Definition lookup_binding (name : string) (bs : list (string * string)) : option string :=
  match List.find (λ b, String.eqb b.1 name) bs with
  | Some b => Some b.2
  | None => None
  end.

#[export] Instance engine : Engine := {|
  Data := string;
  null_data := "";
  make_data s := s;
  TextConstructor := string;
  get_interpolation tpl _ :=
    if String.eqb tpl "{" then Raise "unexpected end of input" else Value tpl;
  construct_with c d bs :=
    if String.eqb c "{.}" then Value d
    else if String.eqb c "{$x}" then
      match lookup_binding "x" bs with
      | Some v => Value v
      | None => Raise "unknown variable x"
      end
    else Value c;
|}.

(** Every file opens and every insertion succeeds; files read as [hello]. *)
Definition friendly : World := {|
  ifstream_contents _ _ := Some "hello";
  ofstream_opens _ _ := true;
  ostream_accepts _ _ _ := true;
|}.

(** No file can be opened, neither for reading nor for writing. *)
Definition hostile : World := {|
  ifstream_contents _ _ := None;
  ofstream_opens _ _ := false;
  ostream_accepts _ _ _ := true;
|}.

(** Files open, but nothing can be written into them. *)
Definition full_disk : World := {|
  ifstream_contents _ _ := Some "hello";
  ofstream_opens _ _ := true;
  ostream_accepts _ t _ := match t with File _ => false | _ => true end;
|}.

Definition run (w : World) (argv : list string) : list event * option Z :=
  let r := main w argv initial in (trace r, status r).

(** [siplus -v first=John Hello -d "" --val last=Doe -o out.txt] *)
Definition greeting : list item :=
  [NamedValue "-v" "first" "John"; Template "Hello"; DefaultValue "-d" "";
   NamedValue "--val" "last" "Doe"; OutputFile "-o" "out.txt"].

End Sample.

(** * Properties *)

Section Flags.
Implicit Types (val : string).

(** ** Recognised flags *)

Lemma eqb_or_true val a b :
  String.eqb val a || String.eqb val b = true → val = a ∨ val = b.
Proof.
  intros [?%String.eqb_eq | ?%String.eqb_eq]%orb_true_iff; auto.
Qed.

Lemma is_flag_false val :
  is_flag val = false ↔
  is_help val = false ∧ is_input val = false ∧ is_val val = false ∧
  is_default val = false ∧ is_output val = false.
Proof.
  unfold is_flag. rewrite !orb_false_iff. tauto.
Qed.

Lemma is_input_not_help val : is_input val = true → is_help val = false.
Proof. by intros [-> | ->]%eqb_or_true. Qed.

Lemma is_val_not_other val :
  is_val val = true → is_help val = false ∧ is_input val = false.
Proof. by intros [-> | ->]%eqb_or_true. Qed.

Lemma is_default_not_other val :
  is_default val = true →
  is_help val = false ∧ is_input val = false ∧ is_val val = false.
Proof. by intros [-> | ->]%eqb_or_true. Qed.

Lemma is_output_not_other val :
  is_output val = true →
  is_help val = false ∧ is_input val = false ∧ is_val val = false ∧
  is_default val = false.
Proof. by intros [-> | ->]%eqb_or_true. Qed.

(** ** Induction over the token list, as the loop advances: by one token or
    by a flag and its argument *)

Lemma tokens_ind (P : list string → Prop) :
  P [] →
  (∀ val rest, P rest → (∀ arg rest', rest = arg :: rest' → P rest') → P (val :: rest)) →
  ∀ toks, P toks.
Proof.
  intros Hnil Hcons toks.
  cut (P toks ∧ ∀ arg rest', toks = arg :: rest' → P rest'); [tauto|].
  induction toks as [|val rest [IH1 IH2]]; split; try done.
  - by apply Hcons.
  - by intros ?? [= _ <-].
Qed.

End Flags.

(** ** Strings: splitting [NAME=VALUE] *)

Section Strings.
Context `{Engine}.
Implicit Types (name value : string).

Lemma append_nil (b : string) : "" +:+ b = b.
Proof. reflexivity. Qed.

Lemma append_cons c (a b : string) : String c a +:+ b = String c (a +:+ b).
Proof. reflexivity. Qed.

Lemma find_app c name tail :
  find c name = None → find c (name +:+ String c tail) = Some (String.length name).
Proof.
  induction name as [|a name IH]; rewrite ?append_nil, ?append_cons; cbn.
  - by rewrite Ascii.eqb_refl.
  - destruct (Ascii.eqb a c); [done|]. intros Hf.
    rewrite IH; [done|]. by destruct (find c name).
Qed.

Lemma substr_prefix (a b : string) : substr (a +:+ b) 0 (String.length a) = a.
Proof.
  unfold substr. induction a as [|c a IH]; rewrite ?append_nil, ?append_cons; cbn.
  - by destruct b.
  - by rewrite IH.
Qed.

Lemma substring_whole (b : string) : String.substring 0 (String.length b) b = b.
Proof. induction b as [|c b IH]; cbn; [done|by rewrite IH]. Qed.

Lemma substr_from_suffix (a : string) c (b : string) :
  substr_from (a +:+ String c b) (String.length a + 1) = b.
Proof.
  unfold substr_from. induction a as [|c' a IH]; rewrite ?append_nil, ?append_cons; cbn.
  - rewrite Nat.sub_0_r. apply substring_whole.
  - apply IH.
Qed.

Lemma append_inj_l (a b c : string) : a +:+ b = a +:+ c → b = c.
Proof.
  induction a as [|x a IH]; rewrite ?append_nil, ?append_cons; [done|].
  intros [= ?]. by apply IH.
Qed.

Lemma parse_val_join name value s :
  find "="%char name = None →
  parse_val (name +:+ "=" +:+ value) s = (s, Returned (name, value)).
Proof.
  intros Hf. unfold parse_val. change ("=" +:+ value) with (String "="%char value).
  rewrite (find_app _ _ _ Hf). unfold mret, M_ret, ret.
  by rewrite substr_prefix, substr_from_suffix.
Qed.

End Strings.

(** ** The loop agrees with its relational reading *)

Section Verification.
Context `{Engine} (w : World).
Local Abbreviation advances := (advances w).
Implicit Types (toks rest pre post : list string) (l : locals) (s : state) (a : Args).
Implicit Types (val name value msg file arg : string).

Local Arguments String.append : simpl never.
Local Arguments help : simpl never.
Local Opaque help_lines.
Local Arguments report : simpl never.
Local Arguments signal_handler : simpl never.
Local Arguments destroy_out : simpl never.

Ltac mrun :=
  repeat (progress unfold mbind, M_bind, bind, mret, M_ret, ret, assert, throw, exit,
    emit, get_args, modify_args, get_trace in * ).

Ltac munfold :=
  repeat (progress unfold mbind, M_bind, bind, mret, M_ret, ret, assert, throw, exit,
    emit, get_args, modify_args, get_trace, read_file, parse_val, assign_out,
    destroy_out, destroy_stream_wrapper, put, flush, endl in * ).

Lemma destroy_out_run o s :
  destroy_out o s =
    ({| st_args := st_args s; st_trace := st_trace s ++ release o |}, Returned tt).
Proof.
  destruct s as [a tr], o as [[os [ptr|]]|]; munfold; simpl;
    by rewrite ?app_nil_r.
Qed.

Lemma parse_loop_help val rest l s :
  is_help val = true → parse_loop w (val :: rest) l s = (help w;; exit 0) s.
Proof. intros Hh. simpl. by rewrite Hh. Qed.

Ltac flags :=
  repeat match goal with
  | Hf : is_flag _ = false |- _ => apply is_flag_false in Hf; destruct_and!
  | Hf : is_input _ = true |- _ => pose proof (is_input_not_help _ Hf); revert Hf
  | Hf : is_val _ = true |- _ => pose proof (is_val_not_other _ Hf); revert Hf
  | Hf : is_default _ = true |- _ => pose proof (is_default_not_other _ Hf); revert Hf
  | Hf : is_output _ = true |- _ => pose proof (is_output_not_other _ Hf); revert Hf
  end; intros; destruct_and?.

Lemma parse_loop_advances toks l s toks' l' s' :
  advances toks l s toks' l' s' → parse_loop w toks l s = parse_loop w toks' l' s'.
Proof.
  destruct 1 as [val file rest l s Hf Hl contents|val arg rest l s idx Hf Hi Ha
                 |val arg rest l s Hf Hl|val file rest l s Hf Hl ok|val rest l s Hf Hl];
    flags; cbn [parse_loop]; repeat match goal with Hx : _ = _ |- _ => rewrite Hx end.
  - munfold; cbn. subst contents. by destruct (ifstream_contents _ _ _).
  - munfold; cbn. rewrite Hi; cbn. by rewrite Ha, bool_decide_eq_true_2.
  - by destruct s.
  - munfold; cbn. by destruct s as [[? [[? [?|]]|] ? ?] ?]; cbn; rewrite ?app_nil_r.
  - by destruct s.
Qed.

Lemma parse_loop_rejects val rest l s msg :
  rejects val rest l (st_args s) msg → parse_loop w (val :: rest) l s = (s, Threw msg).
Proof.
  intros Hr. remember (st_args s) as a eqn:Ea. destruct Hr; subst a; flags;
    try match goal with Hs : is_Some _ |- _ => destruct Hs as [d Hd] end;
    cbn [parse_loop];
    repeat match goal with Hx : _ = _ |- _ => rewrite Hx end; try done.
  - munfold; cbn. by match goal with Hx : find _ _ = _ |- _ => rewrite Hx end.
  - munfold; cbn. match goal with Hx : find _ _ = _ |- _ => rewrite Hx end; cbn.
    rewrite bool_decide_eq_false_2; [done|congruence].
Qed.

Lemma iteration_cases val rest l s :
  is_help val = true ∨
  (∃ msg, rejects val rest l (st_args s) msg) ∨
  (∃ toks' l' s', advances (val :: rest) l s toks' l' s' ∧
                  (toks' = rest ∨ ∃ arg, rest = arg :: toks')).
Proof.
  destruct (is_help val) eqn:Hh; [by left|right].
  destruct (is_input val) eqn:Hi.
  { destruct (input_specified l) eqn:Hl; [left; eexists; by constructor|].
    destruct rest as [|file rest]; [left; eexists; by constructor|].
    right. do 3 eexists. split; [by constructor|eauto]. }
  destruct (is_val val) eqn:Hv.
  { destruct rest as [|arg rest]; [left; eexists; by constructor|].
    destruct (find "="%char arg) as [idx|] eqn:Hidx; [|left; eexists; by constructor].
    destruct (args (st_args s) !! substr arg 0 idx) eqn:Ha.
    - left. eexists. eapply rej_val_again; eauto.
    - right. do 3 eexists. split; [by econstructor|eauto]. }
  destruct (is_default val) eqn:Hd.
  { destruct (default_specified l) eqn:Hl; [left; eexists; by constructor|].
    destruct rest as [|file rest]; [left; eexists; by constructor|].
    right. do 3 eexists. split; [by constructor|eauto]. }
  destruct (is_output val) eqn:Ho.
  { destruct (output_specified l) eqn:Hl; [left; eexists; by constructor|].
    destruct rest as [|file rest]; [left; eexists; by constructor|].
    right. do 3 eexists. split; [by constructor|eauto]. }
  assert (is_flag val = false) by (apply is_flag_false; done).
  destruct (input_specified l) eqn:Hl; [left; eexists; by constructor|].
  right. do 3 eexists. split; [by constructor|eauto].
Qed.

(** Induction along the run of the loop. *)
Lemma parse_loop_ind (P : list string → locals → state → state * result locals → Prop) :
  (∀ l s, P [] l s (s, Returned l)) →
  (∀ val rest l s, is_help val = true → P (val :: rest) l s ((help w;; exit 0) s)) →
  (∀ val rest l s msg,
     rejects val rest l (st_args s) msg → P (val :: rest) l s (s, Threw msg)) →
  (∀ toks l s toks' l' s',
     advances toks l s toks' l' s' →
     P toks' l' s' (parse_loop w toks' l' s') → P toks l s (parse_loop w toks' l' s')) →
  ∀ toks l s, P toks l s (parse_loop w toks l s).
Proof.
  intros Hnil Hhelp Hrej Hadv toks.
  induction toks as [|val rest IH1 IH2] using tokens_ind; intros l s; [apply Hnil|].
  destruct (iteration_cases val rest l s) as [Hh|[[msg Hr]|(toks'&l'&s'&Ha&Hsuf)]].
  - rewrite parse_loop_help by done. by apply Hhelp.
  - rewrite (parse_loop_rejects _ _ _ _ _ Hr). by apply Hrej.
  - rewrite (parse_loop_advances _ _ _ _ _ _ Ha). apply Hadv; [done|].
    destruct Hsuf as [->|[arg ->]]; [apply IH1|by eapply IH2].
Qed.

(** ** Straight-line pieces: what they append to the trace *)

Lemma add_events_nil s : add_events s [] = s.
Proof. destruct s. unfold add_events; simpl. by rewrite app_nil_r. Qed.

Lemma add_events_app s evs evs' :
  add_events (add_events s evs) evs' = add_events s (evs ++ evs').
Proof. unfold add_events; simpl. by rewrite app_assoc. Qed.

Lemma put_all_run os texts s :
  ∃ evs os', put_all w os texts s = (add_events s evs, Returned os') ∧
             os_target os' = os_target os ∧ puts_of (os_target os) texts evs.
Proof.
  revert os s. induction texts as [|text texts IH]; intros os s.
  - exists [], os. rewrite add_events_nil. repeat split. constructor.
  - cbn [put_all]. munfold. cbn.
    set (ok := os_good os && ostream_accepts w (st_trace s) (os_target os) text).
    destruct (IH {| os_target := os_target os; os_good := ok |}
                 (add_events s [EvPut (os_target os) text ok])) as (evs&os'&Hrun&Ht&Hp).
    exists (EvPut (os_target os) text ok :: evs), os'.
    unfold add_events in *. cbn in *. rewrite Hrun. rewrite <-app_assoc. cbn.
    repeat split; [done|]. constructor; eauto.
Qed.

Lemma line_run os texts s :
  ∃ evs ok, (os' ← put_all w os texts; endl w os';; mret tt) s =
              (add_events s (evs ++ [EvFlush (os_target os) ok]), Returned tt) ∧
            puts_of (os_target os) (texts ++ [nl]) evs.
Proof.
  revert os s. induction texts as [|text texts IH]; intros os s.
  - set (ok := os_good os && ostream_accepts w (st_trace s) (os_target os) nl).
    exists [EvPut (os_target os) nl ok], ok. split.
    + munfold. unfold add_events. cbn. by rewrite <-app_assoc.
    + repeat constructor. by exists ok.
  - set (ok := os_good os && ostream_accepts w (st_trace s) (os_target os) text).
    destruct (IH {| os_target := os_target os; os_good := ok |}
                 (add_events s [EvPut (os_target os) text ok])) as (evs&ok'&Hrun&Hp).
    exists (EvPut (os_target os) text ok :: evs), ok'. split.
    + cbn [put_all]. munfold. unfold add_events in *. subst ok. cbn in *.
      rewrite Hrun. by rewrite <-!app_assoc.
    + constructor; [by exists ok|done].
Qed.

(** Observations distribute over concatenation and ignore insertions into
    other streams. *)

Lemma opened_app tr tr' : opened (tr ++ tr') = opened tr ++ opened tr'.
Proof. apply omap_app. Qed.
Lemma deletes_app tr tr' : deletes (tr ++ tr') = deletes tr ++ deletes tr'.
Proof. apply omap_app. Qed.
Lemma inserted_app t tr tr' : inserted t (tr ++ tr') = inserted t tr ++ inserted t tr'.
Proof. apply omap_app. Qed.
Lemma written_app t tr tr' : written t (tr ++ tr') = written t tr ++ written t tr'.
Proof. apply omap_app. Qed.
Lemma compilations_app tr tr' :
  compilations (tr ++ tr') = compilations tr ++ compilations tr'.
Proof. apply omap_app. Qed.
Lemma renderings_app tr tr' : renderings (tr ++ tr') = renderings tr ++ renderings tr'.
Proof. apply omap_app. Qed.

Ltac obs :=
  rewrite ?opened_app, ?deletes_app, ?inserted_app, ?written_app,
    ?compilations_app, ?renderings_app.

Lemma puts_of_inserted t texts evs : puts_of t texts evs → inserted t evs = texts.
Proof.
  induction 1 as [|text e texts evs [ok ->] _ IH]; [done|].
  cbn. rewrite decide_True by done. f_equal. apply IH.
Qed.

Lemma puts_of_inserted_ne t t' texts evs :
  t ≠ t' → puts_of t texts evs → inserted t' evs = [].
Proof.
  intros Hne. induction 1 as [|text e texts evs [ok ->] _ IH]; [done|].
  cbn. by rewrite decide_False.
Qed.

Lemma puts_of_quiet t texts evs :
  puts_of t texts evs →
  opened evs = [] ∧ deletes evs = [] ∧ compilations evs = [] ∧ renderings evs = [].
Proof. induction 1 as [|text e texts evs [ok ->] _ IH]; done. Qed.

Lemma scan_events_quiet evs :
  Forall scan_event evs →
  (∀ t, inserted t evs = []) ∧ compilations evs = [] ∧ renderings evs = [].
Proof.
  induction 1 as [|e evs He _ (IH1&IH2&IH3)]; [done|].
  destruct e; try done.
Qed.

Lemma help_run s :
  ∃ evs ok, help w s = (add_events s (evs ++ [EvFlush Cout ok]), Returned tt) ∧
            puts_of Cout (help_lines ++ [nl]) evs.
Proof. apply (line_run cout). Qed.

Lemma report_run prefix what s :
  ∃ evs ok, report w prefix what s =
              (add_events s (evs ++ [EvFlush Cerr ok]), Returned tt) ∧
            puts_of Cerr [prefix; what; nl] evs.
Proof. apply (line_run cerr [prefix; what]). Qed.

Lemma signal_handler_run {A} signal s :
  ∃ evs, signal_handler (A:=A) w signal s =
           (add_events s (evs ++ [EvStackTrace]), Exited 1) ∧
         puts_of Cout ["Signal "; pretty signal; " caught. Death imminent."] evs.
Proof.
  destruct (put_all_run cout ["Signal "; pretty signal; " caught. Death imminent."] s)
    as (evs&os'&Hrun&_&Hp).
  exists evs. split; [|done]. unfold signal_handler.
  unfold mbind at 1, M_bind, bind. rewrite Hrun. by rewrite <-add_events_app.
Qed.

Lemma advances_trace toks l s toks' l' s' :
  advances toks l s toks' l' s' →
  ∃ evs, st_trace s' = st_trace s ++ evs ∧ Forall scan_event evs.
Proof.
  destruct 1; cbn.
  - eexists; split; [done|]. by repeat constructor.
  - exists []. by rewrite app_nil_r.
  - exists []. by rewrite app_nil_r.
  - rewrite <-app_assoc. eexists; split; [done|].
    constructor; [done|]. by destruct (out (st_args s)) as [[? [?|]]|]; repeat constructor.
  - exists []. by rewrite app_nil_r.
Qed.

(** The loop only reads, opens and releases files, except that it prints
    the usage before its only exit, which has status 0. *)
Lemma parse_loop_trace toks l s s' r :
  parse_loop w toks l s = (s', r) →
  ∃ evs, st_trace s' = st_trace s ++ evs ∧
    match r with
    | Exited code =>
        code = 0%Z ∧ ∃ evs0 evs1 ok,
          evs = evs0 ++ evs1 ++ [EvFlush Cout ok] ∧ Forall scan_event evs0 ∧
          puts_of Cout (help_lines ++ [nl]) evs1
    | _ => Forall scan_event evs
    end.
Proof.
  revert s' r. pattern toks, l, s, (parse_loop w toks l s).
  apply parse_loop_ind; clear toks l s.
  - intros l s s' r [= <- <-]. exists []. by rewrite app_nil_r.
  - intros val rest l s _ s' r. destruct (help_run s) as (evs&ok&Hrun&Hp).
    unfold mbind, M_bind, bind. rewrite Hrun. intros [= <- <-].
    eexists; split; [reflexivity|]. split; [reflexivity|].
    exists [], evs, ok. split_and!; [reflexivity|constructor|exact Hp].
  - intros val rest l s msg _ s' r [= <- <-]. exists []. by rewrite app_nil_r.
  - intros toks l s toks' l' s1 (evs1&Htr1&Hs1)%advances_trace IH s' r Hrun.
    destruct (IH _ _ Hrun) as (evs&Htr&Hr). exists (evs1 ++ evs).
    rewrite Htr, Htr1, <-app_assoc. split; [done|].
    destruct r as [| |code]; [by apply Forall_app|by apply Forall_app|].
    destruct Hr as (->&evs0&evs2&ok&->&?&?). split; [done|].
    exists (evs1 ++ evs0), evs2, ok. rewrite <-app_assoc.
    split_and!; [reflexivity|by apply Forall_app|assumption].
Qed.

(** ** Invariants of the loop *)

(** The tokens an iteration consumes do not depend on what follows them. *)
Lemma advances_consumed toks l s toks' l' s' :
  advances toks l s toks' l' s' →
  ∃ consumed, toks = consumed ++ toks' ∧ ∀ post, advances (consumed ++ post) l s post l' s'.
Proof.
  destruct 1.
  - exists [val; file]. split; [done|]. intros post. by constructor.
  - exists [val; arg]. split; [done|]. intros post. by econstructor.
  - exists [val; arg]. split; [done|]. intros post. by constructor.
  - exists [val; file]. split; [done|]. intros post. by constructor.
  - exists [val]. split; [done|]. intros post. by constructor.
Qed.

(** Scanning a vector whose front part is consumed without incident
    continues on the rest from where the front part ended. *)
Lemma parse_loop_app pre post l s s' l' :
  parse_loop w pre l s = (s', Returned l') →
  parse_loop w (pre ++ post) l s = parse_loop w post l' s'.
Proof.
  revert s' l'. pattern pre, l, s, (parse_loop w pre l s).
  apply parse_loop_ind; clear pre l s.
  - by intros l s s' l' [= <- <-].
  - intros val rest l s _ s' l'. destruct (help_run s) as (evs&ok&Hrun&_).
    unfold mbind, M_bind, bind. by rewrite Hrun.
  - by intros val rest l s msg _ s' l'.
  - intros toks l s toks' l1 s1 (consumed&->&Hadv)%advances_consumed IH s' l' Hrun.
    rewrite <-app_assoc, (parse_loop_advances _ _ _ _ _ _ (Hadv (toks' ++ post))).
    by apply IH.
Qed.

(** Bindings are only ever added. *)
Lemma parse_loop_args toks l s s' r :
  parse_loop w toks l s = (s', r) → args (st_args s) ⊆ args (st_args s').
Proof.
  revert s' r. pattern toks, l, s, (parse_loop w toks l s).
  apply parse_loop_ind; clear toks l s.
  - by intros l s s' r [= <- <-].
  - intros val rest l s _ s' r. destruct (help_run s) as (evs&ok&Hrun&_).
    unfold mbind, M_bind, bind. rewrite Hrun. by intros [= <- <-].
  - by intros val rest l s msg _ s' r [= <- <-].
  - intros toks l s toks' l1 s1 Hadv IH s' r Hrun.
    etrans; [|by eapply IH]. destruct Hadv; cbn; try done.
    by apply insert_subseteq.
Qed.

Lemma sink_inv_puts l s t texts evs evs' :
  puts_of t texts evs → opened evs' = [] → deletes evs' = [] →
  sink_inv l s → sink_inv l (add_events s (evs ++ evs')).
Proof.
  intros (Ho&Hd&_)%puts_of_quiet Ho' Hd' [Hdel Hout]. unfold sink_inv. cbn. obs.
  rewrite Ho, Hd, Ho', Hd', Hdel, !app_nil_r. done.
Qed.

Lemma advances_sink toks l s toks' l' s' :
  advances toks l s toks' l' s' → sink_inv l s → sink_inv l' s'.
Proof.
  intros Hadv [Hdel Hout]. destruct Hadv; unfold sink_inv; cbn; obs;
    rewrite ?Hdel, ?app_nil_r; try done.
  destruct (out (st_args s)) as [sw|]; [destruct Hout; congruence|].
  destruct Hout as [_ ->]. cbn. eauto 10.
Qed.

Lemma parse_loop_sink toks l s s' r :
  sink_inv l s → parse_loop w toks l s = (s', r) →
  ∃ l', sink_inv l' s' ∧ ∀ l'', r = Returned l'' → l' = l''.
Proof.
  intros Hinv Hrun. revert Hinv s' r Hrun. pattern toks, l, s, (parse_loop w toks l s).
  apply parse_loop_ind; clear toks l s.
  - intros l s Hinv s' r [= <- <-]. exists l. split; [done|]. by intros ? [= <-].
  - intros val rest l s _ Hinv s' r. destruct (help_run s) as (evs&ok&Hrun&Hp).
    unfold mbind, M_bind, bind. rewrite Hrun. intros [= <- <-].
    exists l. split; [by eapply sink_inv_puts|done].
  - intros val rest l s msg _ Hinv s' r [= <- <-]. by exists l.
  - intros toks l s toks' l1 s1 Hadv IH Hinv s' r Hrun.
    eapply IH; [|done]. by eapply advances_sink.
Qed.

(** ** [parse_args] in terms of the loop *)

Lemma parse_args_unfold argv s :
  parse_args w argv s =
    match parse_loop w (drop 1 argv) locals_init s with
    | (s1, Returned l) =>
        (with_default_sink l s1,
         if input_specified l then
           if default_specified l then Returned tt
           else Threw "No default value specified"
         else Threw "No input specified (-h for help)")
    | (s1, Threw what) => (s1, Threw what)
    | (s1, Exited code) => (s1, Exited code)
    end.
Proof.
  unfold parse_args, mbind at 1, M_bind, bind.
  destruct (parse_loop w (drop 1 argv) locals_init s) as [s1 [l| |]]; [|done..].
  unfold with_default_sink.
  destruct (output_specified l), (input_specified l), (default_specified l); cbn;
    try done; unfold assign_out; mrun; cbn; by rewrite destroy_out_run.
Qed.

Lemma sink_inv_balanced l s : sink_inv l s → balanced s.
Proof.
  intros [Hdel Hout]. split; [done|].
  destruct (out (st_args s)) as [sw|].
  - by destruct Hout as (_&file&ok&->&->).
  - by destruct Hout as [_ ->].
Qed.

Lemma sink_inv_initial : sink_inv locals_init initial.
Proof. done. Qed.

Lemma with_default_sink_inv l s :
  sink_inv l s →
  balanced (with_default_sink l s) ∧ sink_ready (with_default_sink l s).
Proof.
  intros Hinv. pose proof Hinv as [Hdel Hout]. unfold with_default_sink.
  destruct (output_specified l) eqn:Hl.
  - split; [by eapply sink_inv_balanced|].
    destruct (out (st_args s)) as [sw|] eqn:Ho; [|destruct Hout; congruence].
    exists sw. split; [done|]. right. by destruct Hout as (_&file&ok&?&?); eauto.
  - destruct (out (st_args s)) as [sw|] eqn:Ho; [destruct Hout; congruence|].
    destruct Hout as [_ Hop].
    assert (opened (st_trace s ++ []) = []) as Hop' by by rewrite app_nil_r.
    split.
    + unfold balanced. cbn [st_trace st_args out set_out release owned].
      by rewrite app_nil_r, Hdel, Hop.
    + eexists. split; [done|]. left. by split.
Qed.

Lemma parse_args_balanced argv s s1 r :
  sink_inv locals_init s → parse_args w argv s = (s1, r) → balanced s1.
Proof.
  intros Hinv. rewrite parse_args_unfold.
  destruct (parse_loop w (drop 1 argv) locals_init s) as [s' r'] eqn:Hloop.
  destruct (parse_loop_sink _ _ _ _ _ Hinv Hloop) as (l'&Hinv'&Hl').
  destruct r' as [l| |].
  - intros [= <- _]. rewrite <-(Hl' l eq_refl). by apply with_default_sink_inv.
  - intros [= <- _]. by eapply sink_inv_balanced.
  - intros [= <- _]. by eapply sink_inv_balanced.
Qed.

Lemma parse_args_sink argv s s1 :
  sink_inv locals_init s → parse_args w argv s = (s1, Returned tt) →
  sink_ready s1.
Proof.
  intros Hinv. rewrite parse_args_unfold.
  destruct (parse_loop w (drop 1 argv) locals_init s) as [s' r'] eqn:Hloop.
  destruct (parse_loop_sink _ _ _ _ _ Hinv Hloop) as (l'&Hinv'&Hl').
  destruct r' as [l| |]; [|done..].
  intros [= <- _]. rewrite <-(Hl' l eq_refl). by apply with_default_sink_inv.
Qed.

(** ** The runs of [main], by the stage at which they end *)

Lemma main_exited argv s s1 code :
  parse_args w argv s = (s1, Exited code) → main w argv s = (s1, Exited code).
Proof. intros Hp. unfold main, main_body. mrun. by rewrite Hp. Qed.

Lemma main_usage_error argv s s1 what :
  parse_args w argv s = (s1, Threw what) →
  ∃ evs ok,
    main w argv s =
      (add_events s1 (evs ++ [EvFlush Cerr ok] ++ release (out (st_args s1))),
       Returned 2%Z) ∧
    puts_of Cerr ["error: "; what; nl] evs.
Proof.
  intros Hp. destruct (report_run "error: " what s1) as (evs&ok&Hrun&Hputs).
  exists evs, ok. split; [|done]. unfold main, main_body. mrun. rewrite Hp.
  mrun. rewrite Hrun. cbn. rewrite destroy_out_run. cbn.
  unfold add_events. cbn. by rewrite <-!app_assoc.
Qed.

Lemma main_syntax_error argv s s1 what :
  parse_args w argv s = (s1, Returned tt) →
  get_interpolation (input (st_args s1)) (globals_of (st_args s1)) = Raise what →
  ∃ evs ok,
    main w argv s =
      (add_events s1
         ([EvCompile (input (st_args s1)) (globals_of (st_args s1))] ++
          evs ++ [EvFlush Cerr ok] ++ release (out (st_args s1))),
       Returned 1%Z) ∧
    puts_of Cerr ["parse error: "; what; nl] evs.
Proof.
  intros Hp Hc.
  destruct (report_run "parse error: " what
              (add_events s1 [EvCompile (input (st_args s1)) (globals_of (st_args s1))]))
    as (evs&ok&Hrun&Hputs).
  exists evs, ok. split; [|done]. unfold main, main_body. mrun. rewrite Hp.
  unfold run_template. mrun. cbn. fold (globals_of (st_args s1)). rewrite Hc.
  mrun. unfold add_events in Hrun. rewrite Hrun. cbn. rewrite destroy_out_run. cbn.
  unfold add_events. cbn. by rewrite <-!app_assoc.
Qed.

Lemma main_execution_error argv s s1 constructor what :
  parse_args w argv s = (s1, Returned tt) →
  get_interpolation (input (st_args s1)) (globals_of (st_args s1)) = Value constructor →
  construct_with constructor (default_value (st_args s1))
    (map_to_list (args (st_args s1))) = Raise what →
  ∃ evs ok,
    main w argv s =
      (add_events s1
         ([EvCompile (input (st_args s1)) (globals_of (st_args s1)); EvRender] ++
          evs ++ [EvFlush Cerr ok] ++ release (out (st_args s1))),
       Returned 1%Z) ∧
    puts_of Cerr ["execution error: "; what; nl] evs.
Proof.
  intros Hp Hc Hr.
  destruct (report_run "execution error: " what
              (add_events s1 [EvCompile (input (st_args s1)) (globals_of (st_args s1));
                              EvRender]))
    as (evs&ok&Hrun&Hputs).
  exists evs, ok. split; [|done]. unfold main, main_body. mrun. rewrite Hp.
  unfold run_template. mrun. cbn. fold (globals_of (st_args s1)). rewrite Hc.
  mrun. cbn. rewrite Hr. mrun. unfold add_events in Hrun. cbn in Hrun.
  rewrite <-app_assoc. cbn. rewrite Hrun. cbn. rewrite destroy_out_run. cbn.
  unfold add_events. cbn. by rewrite <-!app_assoc.
Qed.

Lemma main_success argv s s1 constructor text sw :
  parse_args w argv s = (s1, Returned tt) →
  get_interpolation (input (st_args s1)) (globals_of (st_args s1)) = Value constructor →
  construct_with constructor (default_value (st_args s1))
    (map_to_list (args (st_args s1))) = Value text →
  out (st_args s1) = Some sw →
  let t := os_target (ostream_ sw) in
  let requests := [EvCompile (input (st_args s1)) (globals_of (st_args s1)); EvRender] in
  let ok := os_good (ostream_ sw) &&
            ostream_accepts w (st_trace s1 ++ requests) t text in
  (main w argv s).2 = Returned 0%Z ∧
  trace (main w argv s) =
    st_trace s1 ++ requests ++ [EvPut t text ok; EvFlush t ok] ++ release (Some sw).
Proof.
  intros Hp Hc Hr Ho. cbn zeta. unfold trace, main, main_body. mrun. rewrite Hp.
  unfold run_template. mrun. cbn. fold (globals_of (st_args s1)). rewrite Hc.
  mrun. cbn. rewrite Hr, Ho. unfold put, flush. mrun. cbn.
  rewrite destroy_out_run. cbn. split; [done|].
  destruct sw as [os [ptr|]]; cbn; by rewrite <-!app_assoc.
Qed.

Lemma parse_args_trace argv s s1 r :
  parse_args w argv s = (s1, r) →
  ∃ evs, st_trace s1 = st_trace s ++ evs ∧
    match r with
    | Exited code =>
        code = 0%Z ∧ ∃ evs0 evs1 ok,
          evs = evs0 ++ evs1 ++ [EvFlush Cout ok] ∧ Forall scan_event evs0 ∧
          puts_of Cout (help_lines ++ [nl]) evs1
    | _ => Forall scan_event evs
    end.
Proof.
  rewrite parse_args_unfold.
  destruct (parse_loop w (drop 1 argv) locals_init s) as [s' r'] eqn:Hloop.
  destruct (parse_loop_trace _ _ _ _ _ Hloop) as (evs&Htr&Hr).
  destruct r' as [l| |code]; intros [= <- <-]; try by exists evs.
  assert (∃ evs', st_trace (with_default_sink l s') = st_trace s ++ evs' ∧
                  Forall scan_event evs') as (evs'&?&?).
  { unfold with_default_sink. destruct (output_specified l); [by exists evs|].
    cbn. rewrite Htr, <-app_assoc. eexists; split; [done|]. apply Forall_app.
    split; [done|]. by destruct (out (st_args s')) as [[? [?|]]|]; repeat constructor. }
  exists evs'. split; [done|].
  by destruct (input_specified l), (default_specified l).
Qed.

(** The iteration for [-v NAME=VALUE], the name being what precedes the
    first [=]. *)
Lemma parse_loop_val flag name value rest l s :
  is_val flag = true → find "="%char name = None →
  parse_loop w (flag :: (name +:+ "=" +:+ value) :: rest) l s =
    match args (st_args s) !! name with
    | None =>
        parse_loop w rest l
          {| st_args := set_args (st_args s) (<[name := make_data value]> (args (st_args s)));
             st_trace := st_trace s |}
    | Some _ => (s, Threw ("value " +:+ name +:+ " was already specified"))
    end.
Proof.
  intros Hf Hname. flags. cbn [parse_loop].
  repeat match goal with Hx : _ = _ |- _ => rewrite Hx end.
  unfold mbind at 1, M_bind, bind. rewrite parse_val_join by done.
  mrun. cbn. by destruct (args (st_args s) !! name).
Qed.

(** * The claims *)

(** C9. While the input is still unset, a token that is not one of the
    recognised flags, whatever it looks like, becomes the inline template
    and the scan goes on; and when the scan fails with "Unknown extra
    parameter", the offending token was met after the input had been set:
    the tokens before it were consumed without incident and left
    [input_specified] true. *)
Theorem bare_token_becomes_template :
  (∀ val rest l s,
     is_flag val = false → input_specified l = false →
     parse_loop w (val :: rest) l s =
       parse_loop w rest (set_input_specified l)
         {| st_args := set_input (st_args s) val; st_trace := st_trace s |}) ∧
  (∀ toks l s s' v,
     parse_loop w toks l s = (s', Threw ("Unknown extra parameter " +:+ v)) →
     ∃ pre post l0,
       toks = pre ++ v :: post ∧ parse_loop w pre l s = (s', Returned l0) ∧
       input_specified l0 = true ∧ is_flag v = false).
Proof.
  split.
  - intros val rest l s Hf Hl. apply parse_loop_advances. by constructor.
  - intros toks l s. pattern toks, l, s, (parse_loop w toks l s).
    apply parse_loop_ind; clear toks l s.
    + by intros l s s' v.
    + intros val rest l s _ s' v. destruct (help_run s) as (evs&ok&Hrun&_).
      unfold mbind, M_bind, bind. by rewrite Hrun.
    + intros val rest l s msg Hrej s' v [= <- ->].
      inversion Hrej as [| | | | | | | | |val' rest' l' a' Hflag Hl Hval Hrest Hl' Ha' Hmsg];
        subst; rewrite ?append_cons in *; try discriminate.
      apply append_inj_l in Hmsg as ->.
      exists [], rest, l. by split_and!.
    + intros toks l s toks' l1 s1 Hadv IH s' v Hrun.
      destruct (IH _ _ Hrun) as (pre&post&l0&->&Hpre&Hl0&Hv).
      destruct (advances_consumed _ _ _ _ _ _ Hadv) as (consumed&->&Hcons).
      exists (consumed ++ pre), post, l0. rewrite <-app_assoc. split_and!; try done.
      by rewrite (parse_loop_advances _ _ _ _ _ _ (Hcons pre)).
Qed.

(** C10. An input file that cannot be opened does not make parsing fail:
    [read_file] returns the empty string, which becomes the template, and
    the scan goes on with the tokens after the file name. *)
Theorem unreadable_input_is_empty_template val file rest l s :
  is_input val = true → input_specified l = false →
  ifstream_contents w (st_trace s) file = None →
  read_file w file s = (add_events s [EvRead file false], Returned "") ∧
  parse_loop w (val :: file :: rest) l s =
    parse_loop w rest (set_input_specified l)
      {| st_args := set_input (st_args s) "";
         st_trace := st_trace s ++ [EvRead file false] |}.
Proof.
  intros Hf Hl Hnone. split.
  - unfold read_file. mrun. by rewrite Hnone.
  - rewrite (parse_loop_advances _ _ _ _ _ _ (adv_input w val file rest l s Hf Hl)).
    cbn zeta. by rewrite Hnone.
Qed.

(** C7, as the code has it.  Once the loop has consumed every token, the
    two checks are made in order: without an input the error is "No input
    specified", with an input but without a default it is "No default value
    specified", and [parse_args] returns exactly when both were given.
    When both are missing only the first error is raised. *)
Theorem final_checks_in_order argv s s1 l :
  parse_loop w (drop 1 argv) locals_init s = (s1, Returned l) →
  (input_specified l = false →
     (parse_args w argv s).2 = Threw "No input specified (-h for help)") ∧
  (input_specified l = true → default_specified l = false →
     (parse_args w argv s).2 = Threw "No default value specified") ∧
  ((parse_args w argv s).2 = Returned tt ↔
     input_specified l = true ∧ default_specified l = true).
Proof.
  intros Hloop. rewrite parse_args_unfold, Hloop. cbn.
  destruct (input_specified l), (default_specified l);
    repeat split; intros; destruct_and?; done.
Qed.

(** C5, as the code has it.  When the scan reaches [-h] or [--help] as a
    flag, that is when the tokens before it are consumed to their end without
    an error, the usage is printed and the process exits with status 0 at
    once: the tokens after it are not looked at, nothing is validated,
    nothing is compiled and nothing is reported on standard error. *)
Theorem help_when_reached prog pre h post s l :
  is_help h = true →
  parse_loop w pre locals_init initial = (s, Returned l) →
  let r := main w (prog :: pre ++ h :: post) initial in
  r.2 = Exited 0 ∧ status r = Some 0%Z ∧
  inserted Cout (trace r) = help_lines ++ [nl] ∧
  inserted Cerr (trace r) = [] ∧ compilations (trace r) = [].
Proof.
  intros Hh Hpre r.
  destruct (parse_loop_trace _ _ _ _ _ Hpre) as (evs0&Htr&(Hq&Hc&_)%scan_events_quiet).
  destruct (help_run s) as (evs&ok&Hrun&Hputs).
  assert (parse_args w (prog :: pre ++ h :: post) initial =
            (add_events s (evs ++ [EvFlush Cout ok]), Exited 0)) as Hargs.
  { rewrite parse_args_unfold, skipn_cons, drop_0.
    rewrite (parse_loop_app _ _ _ _ _ _ Hpre), parse_loop_help by done.
    unfold mbind, M_bind, bind. by rewrite Hrun. }
  subst r. rewrite (main_exited _ _ _ _ Hargs).
  unfold status, trace, add_events. cbn [fst snd st_trace].
  rewrite Htr. cbn [initial st_trace app]. obs. rewrite !Hq, Hc.
  rewrite (puts_of_inserted _ _ _ Hputs).
  rewrite (puts_of_inserted_ne Cout Cerr _ _ ltac:(done) Hputs).
  destruct (puts_of_quiet _ _ _ Hputs) as (_&_&->&_).
  rewrite !app_nil_r. split_and!; reflexivity.
Qed.

(** C6. A second [-v] for a name already bound makes parsing fail with
    "value NAME was already specified": [parse_args] does not return, the
    first binding is still the one in the map, and the process ends with
    status 2. *)
Theorem duplicate_value_rejected
    prog pre flag1 name value1 mid flag2 value2 post s0 l0 s2 l2 :
  is_val flag1 = true → is_val flag2 = true →
  find "="%char name = None →
  parse_loop w pre locals_init initial = (s0, Returned l0) →
  parse_loop w (flag1 :: (name +:+ "=" +:+ value1) :: mid) l0 s0 = (s2, Returned l2) →
  let argv := prog :: pre ++ flag1 :: (name +:+ "=" +:+ value1) :: mid ++
                             flag2 :: (name +:+ "=" +:+ value2) :: post in
  parse_args w argv initial = (s2, Threw ("value " +:+ name +:+ " was already specified")) ∧
  args (st_args s2) !! name = Some (make_data value1) ∧
  status (main w argv initial) = Some 2%Z.
Proof.
  intros Hf1 Hf2 Hname Hpre Hmid argv.
  assert (args (st_args s2) !! name = Some (make_data value1)) as Hbound.
  { rewrite parse_loop_val in Hmid by done.
    destruct (args (st_args s0) !! name) eqn:Hfresh; [done|].
    apply parse_loop_args in Hmid. eapply lookup_weaken; [|exact Hmid].
    cbn. apply lookup_insert_eq. }
  assert (parse_args w argv initial =
            (s2, Threw ("value " +:+ name +:+ " was already specified"))) as Hargs.
  { rewrite parse_args_unfold. subst argv. rewrite skipn_cons, drop_0.
    rewrite (parse_loop_app _ _ _ _ _ _ Hpre).
    rewrite (app_comm_cons mid), (app_comm_cons (_ :: mid)).
    rewrite (parse_loop_app _ _ _ _ _ _ Hmid).
    rewrite parse_loop_val by done. by rewrite Hbound. }
  split_and!; [done..|].
  destruct (main_usage_error _ _ _ _ Hargs) as (evs&ok&->&_). done.
Qed.

(** C2. The exit status and what is reported on standard error, by the
    stage at which the run ends: status 0 with the usage on standard output
    when [parse_args] exits (which it does for [-h] only); status 2 and a
    line starting with "error: " when [parse_args] throws; status 1 and a
    line starting with "parse error: " when the engine rejects the template;
    status 1 and a line starting with "execution error: " when rendering
    fails; status 0, nothing on standard error and the rendered text
    inserted into the sink otherwise. *)
Theorem exit_status_by_stage argv :
  let r := main w argv initial in
  match parse_args w argv initial with
  | (_, Exited code) =>
      code = 0%Z ∧ status r = Some 0%Z ∧
      inserted Cout (trace r) = help_lines ++ [nl] ∧ inserted Cerr (trace r) = []
  | (_, Threw what) =>
      status r = Some 2%Z ∧ inserted Cerr (trace r) = ["error: "; what; nl]
  | (s1, Returned _) =>
      let a := st_args s1 in
      match get_interpolation (input a) (globals_of a) with
      | Raise what =>
          status r = Some 1%Z ∧ inserted Cerr (trace r) = ["parse error: "; what; nl]
      | Value constructor =>
          match construct_with constructor (default_value a) (map_to_list (args a)) with
          | Raise what =>
              status r = Some 1%Z ∧
              inserted Cerr (trace r) = ["execution error: "; what; nl]
          | Value text =>
              status r = Some 0%Z ∧ inserted Cerr (trace r) = [] ∧
              ∃ sw, out a = Some sw ∧
                    inserted (os_target (ostream_ sw)) (trace r) = [text]
          end
      end
  end.
Proof.
  intros r. subst r.
  destruct (parse_args w argv initial) as [s1 [[]|what|code]] eqn:Hargs.
  - destruct (parse_args_trace _ _ _ _ Hargs) as (evs0&Htr&(Hq&_)%scan_events_quiet).
    cbn zeta.
    destruct (get_interpolation _ _) as [constructor|what] eqn:Hc.
    + destruct (construct_with _ _ _) as [text|what] eqn:Hr.
      * destruct (parse_args_sink _ _ _ sink_inv_initial Hargs) as (sw&Hsw&Hkind).
        destruct (main_success _ _ _ _ _ _ Hargs Hc Hr Hsw) as [Hres Htrace].
        unfold status. rewrite Hres, Htrace, Htr. split; [done|].
        cbn [initial st_trace]. obs. rewrite !Hq. split.
        { by destruct Hkind as [[-> _]|(file&ok&->&_)]. }
        exists sw. split; [done|].
        destruct Hkind as [[-> _]|(file&ok&->&_)];
          cbn [ostream_ os_target cout]; obs; rewrite Hq;
          cbn; by rewrite ?decide_True.
      * destruct (main_execution_error _ _ _ _ _ Hargs Hc Hr) as (evs&ok&->&Hputs).
        unfold status, trace, add_events. cbn [fst snd st_trace]. split; [done|].
        rewrite Htr. cbn [initial st_trace]. obs.
        rewrite Hq, (puts_of_inserted _ _ _ Hputs).
        by destruct (out (st_args s1)) as [[? [?|]]|].
    + destruct (main_syntax_error _ _ _ _ Hargs Hc) as (evs&ok&->&Hputs).
      unfold status, trace, add_events. cbn [fst snd st_trace]. split; [done|].
      rewrite Htr. cbn [initial st_trace]. obs.
      rewrite Hq, (puts_of_inserted _ _ _ Hputs).
      by destruct (out (st_args s1)) as [[? [?|]]|].
  - destruct (parse_args_trace _ _ _ _ Hargs) as (evs0&Htr&(Hq&_)%scan_events_quiet).
    destruct (main_usage_error _ _ _ _ Hargs) as (evs&ok&->&Hputs).
    unfold status, trace, add_events. cbn [fst snd st_trace]. split; [done|].
    rewrite Htr. cbn [initial st_trace]. obs.
    rewrite Hq, (puts_of_inserted _ _ _ Hputs).
    by destruct (out (st_args s1)) as [[? [?|]]|].
  - destruct (parse_args_trace _ _ _ _ Hargs)
      as (evs0&Htr&->&evs1&evs2&ok&->&(Hq&_)%scan_events_quiet&Hputs).
    rewrite (main_exited _ _ _ _ Hargs). unfold status, trace. cbn [fst snd].
    split; [done|]. split; [done|]. rewrite Htr. cbn [initial st_trace]. obs.
    rewrite !Hq, (puts_of_inserted _ _ _ Hputs).
    rewrite (puts_of_inserted_ne Cout Cerr _ _ ltac:(done) Hputs).
    rewrite !app_nil_r. split; reflexivity.
Qed.

(** C3, as the code has it.  For the two signals registered by [main], the
    handler inserts "Signal ", the signal number and " caught. Death
    imminent." into standard output, prints a stack trace and exits with
    status 1, the status of a template error. *)
Theorem signal_handler_exits_1 signal s :
  signal ∈ handled_signals →
  ∃ (m : M Z) evs,
    deliver w signal = Some m ∧
    m s = (add_events s (evs ++ [EvStackTrace]), Exited 1) ∧
    puts_of Cout ["Signal "; pretty signal; " caught. Death imminent."] evs ∧
    status (m s) = Some 1%Z.
Proof.
  intros Hin. destruct (signal_handler_run (A:=Z) signal s) as (evs&Hrun&Hputs).
  exists (signal_handler w signal), evs. unfold deliver.
  rewrite bool_decide_eq_true_2 by done. rewrite Hrun. by split_and!.
Qed.

(** X15. Every run of [main] either returns, with status 0, 1 or 2, or is
    the run in which [parse_args] prints the usage and exits with status 0:
    no exception leaves [main]. *)
Lemma main_outcomes argv :
  (∃ code, (main w argv initial).2 = Returned code ∧
           (code = 0 ∨ code = 1 ∨ code = 2)%Z) ∨
  ((main w argv initial).2 = Exited 0 ∧ (parse_args w argv initial).2 = Exited 0).
Proof.
  destruct (parse_args w argv initial) as [s1 [[]|what|code']] eqn:Hargs.
  - left.
    destruct (get_interpolation (input (st_args s1)) (globals_of (st_args s1)))
      as [constructor|what] eqn:Hc.
    + destruct (construct_with constructor (default_value (st_args s1))
                  (map_to_list (args (st_args s1)))) as [text|what] eqn:Hr.
      * destruct (parse_args_sink _ _ _ sink_inv_initial Hargs) as (sw&Hsw&_).
        destruct (main_success _ _ _ _ _ _ Hargs Hc Hr Hsw) as [-> _]. eauto.
      * destruct (main_execution_error _ _ _ _ _ Hargs Hc Hr) as (evs&ok&->&_). eauto.
    + destruct (main_syntax_error _ _ _ _ Hargs Hc) as (evs&ok&->&_). eauto.
  - left. destruct (main_usage_error _ _ _ _ Hargs) as (evs&ok&->&_). eauto.
  - right. destruct (parse_args_trace _ _ _ _ Hargs) as (_&_&->&_).
    by rewrite (main_exited _ _ _ _ Hargs).
Qed.

(** Releasing what [args.out] owns at the end of a trace in which nothing
    was released yet and in which [args.out] owns exactly what was opened. *)
Lemma release_at_exit tr0 mid o :
  deletes tr0 = [] → (opened tr0).*1 = owned o →
  opened mid = [] → deletes mid = [] →
  let tr := tr0 ++ mid ++ release o in
  deletes tr = (opened tr).*1 ∧ length (opened tr) ≤ 1 ∧
  ∀ file ok, (file, ok) ∈ opened tr →
             ∃ tr', tr = tr' ++ [EvDelete file] ∧ deletes tr' = [].
Proof.
  intros Hdel Hown Hmo Hmd tr. subst tr. obs. rewrite Hdel, Hmo, Hmd.
  assert (opened (release o) = []) as -> by by destruct o as [[? [?|]]|].
  assert (deletes (release o) = owned o) as -> by by destruct o as [[? [?|]]|].
  rewrite !app_nil_r, !app_nil_l. split; [done|]. split.
  - rewrite <-(length_fmap fst), Hown. destruct o as [[? [?|]]|]; cbn; lia.
  - intros file ok Hin. apply (list_elem_of_fmap_2 fst) in Hin. rewrite Hown in Hin.
    destruct o as [[os [ptr|]]|]; cbn in Hin; try by apply elem_of_nil in Hin.
    apply list_elem_of_singleton in Hin as ->. cbn in *.
    exists (tr0 ++ mid). rewrite <-app_assoc. split; [done|].
    by rewrite deletes_app, Hdel, Hmd.
Qed.

(** C8. On every run that leaves [main] by a [return], that is on every
    run but the one that prints the usage, the streams released are exactly
    the streams opened, there is at most one of them, and the release is the
    last thing the process does: the stream owned by the sink is released
    once, after the final write, whether or not the write or the opening
    succeeded and whichever stage failed. *)
Theorem owned_sink_released_once argv code :
  (main w argv initial).2 = Returned code →
  let tr := trace (main w argv initial) in
  deletes tr = (opened tr).*1 ∧ length (opened tr) ≤ 1 ∧
  ∀ file ok, (file, ok) ∈ opened tr →
             ∃ tr', tr = tr' ++ [EvDelete file] ∧ deletes tr' = [].
Proof.
  destruct (parse_args w argv initial) as [s1 [[]|what|code']] eqn:Hargs.
  - destruct (parse_args_balanced _ _ _ _ sink_inv_initial Hargs) as [Hdel Hown].
    destruct (get_interpolation (input (st_args s1)) (globals_of (st_args s1)))
      as [constructor|what] eqn:Hc.
    + destruct (construct_with constructor (default_value (st_args s1))
                  (map_to_list (args (st_args s1)))) as [text|what] eqn:Hr.
      * destruct (parse_args_sink _ _ _ sink_inv_initial Hargs) as (sw&Hsw&_).
        destruct (main_success _ _ _ _ _ _ Hargs Hc Hr Hsw) as [_ Htrace].
        intros _. cbn zeta. rewrite Htrace, <-Hsw, (app_assoc [_; _]).
        by apply release_at_exit.
      * destruct (main_execution_error _ _ _ _ _ Hargs Hc Hr) as (evs&ok&->&Hputs).
        destruct (puts_of_quiet _ _ _ Hputs) as (Ho&Hd&_).
        intros _. unfold trace, add_events. cbn [fst st_trace].
        rewrite (app_assoc evs), (app_assoc [_; _]).
        apply release_at_exit; try done; obs; by rewrite ?Ho, ?Hd.
    + destruct (main_syntax_error _ _ _ _ Hargs Hc) as (evs&ok&->&Hputs).
      destruct (puts_of_quiet _ _ _ Hputs) as (Ho&Hd&_).
      intros _. unfold trace, add_events. cbn [fst st_trace].
      rewrite (app_assoc evs), (app_assoc [_]).
      apply release_at_exit; try done; obs; by rewrite ?Ho, ?Hd.
  - destruct (parse_args_balanced _ _ _ _ sink_inv_initial Hargs) as [Hdel Hown].
    destruct (main_usage_error _ _ _ _ Hargs) as (evs&ok&->&Hputs).
    destruct (puts_of_quiet _ _ _ Hputs) as (Ho&Hd&_).
    intros _. unfold trace, add_events. cbn [fst st_trace]. rewrite (app_assoc evs).
    apply release_at_exit; try done; obs; by rewrite ?Ho, ?Hd.
  - by rewrite (main_exited _ _ _ _ Hargs).
Qed.

(** C4, as the code has it.  A file that could not be opened for [-o] is
    not an error.  When [parse_args] succeeds although the opening failed,
    the template is compiled as usual; and when compilation and rendering
    succeed, the rendered text is inserted into the failed stream, where it
    is lost, nothing is reported on standard error and the exit status is
    0. *)
Theorem failed_open_is_not_an_error argv s1 file :
  parse_args w argv initial = (s1, Returned tt) →
  (file, false) ∈ opened (st_trace s1) →
  let r := main w argv initial in
  let a := st_args s1 in
  compilations (trace r) = [(input a, globals_of a)] ∧
  ∀ constructor text,
    get_interpolation (input a) (globals_of a) = Value constructor →
    construct_with constructor (default_value a) (map_to_list (args a)) = Value text →
    status r = Some 0%Z ∧ renderings (trace r) = [tt] ∧
    inserted (File file) (trace r) = [text] ∧ written (File file) (trace r) = [] ∧
    inserted Cerr (trace r) = [].
Proof.
  intros Hargs Hin r a. subst r a.
  destruct (parse_args_trace _ _ _ _ Hargs) as (evs0&Htr&Hscan).
  destruct (scan_events_quiet _ Hscan) as (Hq&Hcomp&Hrend).
  destruct (parse_args_sink _ _ _ sink_inv_initial Hargs) as (sw&Hsw&Hkind).
  destruct Hkind as [[_ Hop]|(file'&ok'&->&Hop)];
    rewrite Hop in Hin; [by apply elem_of_nil in Hin|].
  apply list_elem_of_singleton in Hin as [= <- <-].
  assert (written (File file) evs0 = []) as Hw.
  { clear -Hscan. induction Hscan as [|e evs He _ IH]; [done|]. by destruct e. }
  split.
  - destruct (get_interpolation (input (st_args s1)) (globals_of (st_args s1)))
      as [constructor|what] eqn:Hc.
    + destruct (construct_with constructor (default_value (st_args s1))
                  (map_to_list (args (st_args s1)))) as [text|what] eqn:Hr.
      * destruct (main_success _ _ _ _ _ _ Hargs Hc Hr Hsw) as [_ ->].
        rewrite Htr. cbn [initial st_trace]. obs. by rewrite Hcomp.
      * destruct (main_execution_error _ _ _ _ _ Hargs Hc Hr) as (evs&ok&->&Hputs).
        destruct (puts_of_quiet _ _ _ Hputs) as (_&_&Hpc&_).
        unfold trace, add_events. cbn [fst st_trace]. rewrite Htr, Hsw.
        cbn [initial st_trace]. obs. by rewrite Hcomp, Hpc.
    + destruct (main_syntax_error _ _ _ _ Hargs Hc) as (evs&ok&->&Hputs).
      destruct (puts_of_quiet _ _ _ Hputs) as (_&_&Hpc&_).
      unfold trace, add_events. cbn [fst st_trace]. rewrite Htr, Hsw.
      cbn [initial st_trace]. obs. by rewrite Hcomp, Hpc.
  - intros constructor text Hc Hr.
    destruct (main_success _ _ _ _ _ _ Hargs Hc Hr Hsw) as [Hres ->].
    unfold status. rewrite Hres, Htr. cbn [initial st_trace ostream_ os_target os_good].
    obs. rewrite Hrend, !Hq, Hw. cbn. by rewrite decide_True.
Qed.

(** ** Well-formed vectors *)

Lemma tokens_cons it its : tokens (it :: its) = tokens_of it ++ tokens its.
Proof. reflexivity. Qed.

Lemma count_cons p it its : count p (it :: its) = Nat.b2n (p it) + count p its.
Proof. unfold count. cbn. by destruct (p it). Qed.

Lemma bound_named flag name value its :
  bound (NamedValue flag name value :: its) = <[name := make_data value]> (bound its).
Proof. reflexivity. Qed.

Local Arguments parse_loop : simpl never.

Lemma parse_loop_items its : ∀ l s,
  Forall well_formed its → NoDup (bindings its).*1 →
  (∀ name, name ∈ (bindings its).*1 → args (st_args s) !! name = None) →
  Nat.b2n (input_specified l) + count gives_input its ≤ 1 →
  Nat.b2n (default_specified l) + count gives_default its ≤ 1 →
  Nat.b2n (output_specified l) + count gives_output its ≤ 1 →
  ∃ s' l',
    parse_loop w (tokens its) l s = (s', Returned l') ∧
    Nat.b2n (input_specified l') = Nat.b2n (input_specified l) + count gives_input its ∧
    Nat.b2n (default_specified l') =
      Nat.b2n (default_specified l) + count gives_default its ∧
    args (st_args s') = bound its ∪ args (st_args s).
Proof.
  induction its as [|it its IH]; intros l s Hwf Hnd Hfresh Hi Hd Ho.
  { exists s, l. unfold count. cbn. rewrite !Nat.add_0_r. unfold bound. cbn.
    by rewrite (left_id_L ∅ (∪)). }
  apply Forall_cons in Hwf as [Hit Hwf].
  rewrite tokens_cons. rewrite !count_cons in *.
  destruct it as [text|flag file|flag value|flag name value|flag file];
    cbn [tokens_of app gives_input gives_default gives_output well_formed] in *;
    [change (bindings (_ :: its)) with (bindings its) in *;
     change (bound (_ :: its)) with (bound its)..| |
     change (bindings (_ :: its)) with (bindings its) in *;
     change (bound (_ :: its)) with (bound its)].
  - assert (input_specified l = false) as Hl by (destruct (input_specified l); cbn in *; lia).
    rewrite (parse_loop_advances _ _ _ _ _ _ (adv_bare w text (tokens its) l s Hit Hl)).
    rewrite Hl in *.
    destruct (IH (set_input_specified l)
                {| st_args := set_input (st_args s) text; st_trace := st_trace s |})
      as (s'&l'&Hrun&Hi'&Hd'&Ha); cbn in *; try done; try lia.
    exists s', l'. split_and!; try done; lia.
  - assert (input_specified l = false) as Hl by (destruct (input_specified l); cbn in *; lia).
    rewrite (parse_loop_advances _ _ _ _ _ _ (adv_input w flag file (tokens its) l s Hit Hl)).
    rewrite Hl in *.
    edestruct (IH (set_input_specified l)) as (s'&l'&Hrun&Hi'&Hd'&Ha);
      [done|done| | | | |]; cycle -1.
    { exists s', l'. split_and!; [exact Hrun| | |exact Ha]; cbn in *; lia. }
    all: cbn in *; try done; lia.
  - assert (default_specified l = false) as Hl
      by (destruct (default_specified l); cbn in *; lia).
    rewrite (parse_loop_advances _ _ _ _ _ _
               (adv_default w flag value (tokens its) l s Hit Hl)).
    rewrite Hl in *.
    edestruct (IH (set_default_specified l)) as (s'&l'&Hrun&Hi'&Hd'&Ha);
      [done|done| | | | |]; cycle -1.
    { exists s', l'. split_and!; [exact Hrun| | |exact Ha]; cbn in *; lia. }
    all: cbn in *; try done; lia.
  - destruct Hit as [Hflag Hname].
    change (bindings (_ :: its)) with ((name, value) :: bindings its) in *.
    rewrite fmap_cons in Hnd, Hfresh. cbn [fst] in Hnd, Hfresh.
    apply NoDup_cons in Hnd as [Hnotin Hnd].
    rewrite parse_loop_val by done.
    rewrite (Hfresh name) by (apply elem_of_cons; by left).
    edestruct (IH l) as (s'&l'&Hrun&Hi'&Hd'&Ha); [done|done| | | | |]; cycle -1.
    { exists s', l'. split_and!; [exact Hrun|done|done|]. rewrite Ha.
      cbn [st_args args set_args].
      rewrite bound_named, <-insert_union_l, <-insert_union_r; [done|].
      apply not_elem_of_list_to_map_1. by rewrite <-list_fmap_compose. }
    all: try done.
    cbn. intros name' Hin. rewrite lookup_insert_ne; [|by intros ->].
    apply Hfresh. apply elem_of_cons. by right.
  - assert (output_specified l = false) as Hl
      by (destruct (output_specified l); cbn in *; lia).
    rewrite (parse_loop_advances _ _ _ _ _ _
               (adv_output w flag file (tokens its) l s Hit Hl)).
    edestruct (IH (set_output_specified l)) as (s'&l'&Hrun&Hi'&Hd'&Ha);
      [done|done| | | | |]; cycle -1.
    { exists s', l'. split_and!; [exact Hrun| | |exact Ha]; cbn in *; lia. }
    all: cbn in *; try done; rewrite ?Hl in *; cbn in *; lia.
Qed.

(** C1. A vector made of exactly one template (inline or [-i]), exactly
    one [-d], at most one [-o] and any number of [-v NAME=VALUE] with
    pairwise distinct names, in any order, is accepted by [parse_args], and
    the resulting map binds exactly the given names, each to [make_data] of
    what follows the first [=]. *)
Theorem valid_vector_parses prog its :
  valid its →
  ∃ s1, parse_args w (prog :: tokens its) initial = (s1, Returned tt) ∧
        ∀ name d, args (st_args s1) !! name = Some d ↔
                  ∃ value, (name, value) ∈ bindings its ∧ d = make_data value.
Proof.
  intros [Hwf Hi Hd Ho Hnd].
  destruct (parse_loop_items its locals_init initial) as (s'&l'&Hrun&Hi'&Hd'&Ha);
    try done; cbn; try lia.
  exists (with_default_sink l' s'). split.
  - rewrite parse_args_unfold, skipn_cons, drop_0, Hrun.
    cbn in Hi', Hd'. rewrite Hi in Hi'. rewrite Hd in Hd'.
    by destruct (input_specified l'), (default_specified l').
  - intros name d.
    assert (args (st_args (with_default_sink l' s')) = bound its) as ->.
    { unfold with_default_sink. destruct (output_specified l'); cbn; rewrite Ha;
        apply (right_id_L ∅ (∪)). }
    unfold bound. rewrite <-elem_of_list_to_map; last first.
    { by rewrite <-list_fmap_compose. }
    rewrite list_elem_of_fmap. split.
    + intros ([n v]&[= -> ->]&Hin). by exists v.
    + intros (value&Hin&->). by exists (name, value).
Qed.

(** * Further properties *)

(** ** [parse_val] *)

Lemma find_split c (val : string) idx :
  find c val = Some idx →
  val = substr val 0 idx +:+ String c (substr_from val (idx + 1)) ∧
  find c (substr val 0 idx) = None.
Proof.
  unfold substr, substr_from. revert idx.
  induction val as [|a val IH]; intros idx; [done|]. cbn [find].
  destruct (Ascii.eqb a c) eqn:Hac.
  - intros [= <-]. apply Ascii.eqb_eq in Hac as ->. cbn.
    rewrite Nat.sub_0_r, substring_whole. by rewrite append_nil.
  - destruct (find c val) as [idx'|] eqn:Hf; [|done]. intros [= <-].
    destruct (IH idx' eq_refl) as [Hval Hnone]. cbn.
    rewrite append_cons, <-Hval, Hac, Hnone. done.
Qed.

Lemma find_app_is_Some c (a b : string) : is_Some (find c (a +:+ String c b)).
Proof.
  induction a as [|x a IH]; rewrite ?append_nil, ?append_cons; cbn [find].
  - by rewrite Ascii.eqb_refl.
  - destruct (Ascii.eqb x c); [done|]. by apply fmap_is_Some.
Qed.

(** X1. [parse_val] and joining with [=] are inverse to one another: the
    pair returned for a string rebuilds it, the name holds no [=], and every
    such pair is the one returned for the string it builds.  The state is
    left as it was. *)
Theorem parse_val_inverts_join val name value s s' :
  parse_val val s = (s', Returned (name, value)) ↔
  s' = s ∧ val = name +:+ "=" +:+ value ∧ find "="%char name = None.
Proof.
  split.
  - unfold parse_val. destruct (find "="%char val) as [idx|] eqn:Hf; [|done].
    intros [= <- <- <-]. destruct (find_split _ _ _ Hf) as [Hval Hnone].
    split; [done|]. split; [exact Hval|exact Hnone].
  - intros (->&->&Hnone). by apply parse_val_join.
Qed.

(** X2. [parse_val] fails exactly on the strings without [=], with the
    message "Could not find value in " followed by the string; it never
    exits and never changes the state. *)
Theorem parse_val_failure val s :
  (find "="%char val = None ↔
   parse_val val s = (s, Threw ("Could not find value in " +:+ val))) ∧
  (find "="%char val = None ↔ ∀ name value, val ≠ name +:+ "=" +:+ value) ∧
  (parse_val val s).1 = s ∧ ∀ code, (parse_val val s).2 ≠ Exited code.
Proof.
  unfold parse_val. split_and!.
  - destruct (find "="%char val); split; done.
  - split.
    + intros Hnone name value ->.
      destruct (find_app_is_Some "="%char name value) as [idx Hsome].
      change ("=" +:+ value) with (String "="%char value) in Hnone. congruence.
    + intros Hall. destruct (find "="%char val) as [idx|] eqn:Hf; [|done].
      destruct (find_split _ _ _ Hf) as [Hval _]. by destruct (Hall _ _ Hval).
  - by destruct (find "="%char val).
  - intros code. by destruct (find "="%char val).
Qed.

(** ** More on the loop *)

(** A scan that throws was rejected at one token, all tokens before it
    having been consumed. *)
Lemma parse_loop_throws toks l s s' what :
  parse_loop w toks l s = (s', Threw what) →
  ∃ pre val rest l0,
    toks = pre ++ val :: rest ∧ parse_loop w pre l s = (s', Returned l0) ∧
    rejects val rest l0 (st_args s') what.
Proof.
  revert s' what. pattern toks, l, s, (parse_loop w toks l s).
  apply parse_loop_ind; clear toks l s.
  - by intros l s s' what.
  - intros val rest l s _ s' what. destruct (help_run s) as (evs&ok&Hrun&_).
    unfold mbind, M_bind, bind. by rewrite Hrun.
  - intros val rest l s msg Hrej s' what [= <- <-]. by exists [], val, rest, l.
  - intros toks l s toks' l1 s1 Hadv IH s' what Hrun.
    destruct (IH _ _ Hrun) as (pre&val&rest&l0&->&Hpre&Hrej).
    destruct (advances_consumed _ _ _ _ _ _ Hadv) as (consumed&->&Hcons).
    exists (consumed ++ pre), val, rest, l0. rewrite <-app_assoc. split_and!; try done.
    by rewrite (parse_loop_advances _ _ _ _ _ _ (Hcons pre)).
Qed.

(** What an option has set, no later iteration changes. *)
Lemma advances_frozen toks l s toks' l' s' :
  advances toks l s toks' l' s' →
  (input_specified l = true →
     input (st_args s') = input (st_args s) ∧ input_specified l' = true) ∧
  (default_specified l = true →
     default_value (st_args s') = default_value (st_args s) ∧
     default_specified l' = true) ∧
  (output_specified l = true →
     out (st_args s') = out (st_args s) ∧ output_specified l' = true).
Proof. destruct 1; cbn; split_and!; intros; split; congruence. Qed.

Lemma parse_loop_frozen toks l s s' r :
  parse_loop w toks l s = (s', r) →
  (input_specified l = true →
     input (st_args s') = input (st_args s) ∧
     ∀ l', r = Returned l' → input_specified l' = true) ∧
  (default_specified l = true →
     default_value (st_args s') = default_value (st_args s) ∧
     ∀ l', r = Returned l' → default_specified l' = true) ∧
  (output_specified l = true →
     out (st_args s') = out (st_args s) ∧
     ∀ l', r = Returned l' → output_specified l' = true).
Proof.
  revert s' r. pattern toks, l, s, (parse_loop w toks l s).
  apply parse_loop_ind; clear toks l s.
  - intros l s s' r [= <- <-]. split_and!; intros Hl; (split; [done|]);
      by intros ? [= <-].
  - intros val rest l s _ s' r. destruct (help_run s) as (evs&ok&Hrun&_).
    unfold mbind, M_bind, bind. rewrite Hrun. intros [= <- <-].
    split_and!; intros Hl; by split.
  - intros val rest l s msg _ s' r [= <- <-]. split_and!; intros Hl; by split.
  - intros toks l s toks' l1 s1 Hadv IH s' r Hrun.
    destruct (advances_frozen _ _ _ _ _ _ Hadv) as (Hi&Hd&Ho).
    destruct (IH _ _ Hrun) as (Hi'&Hd'&Ho').
    split_and!; intros Hl.
    + destruct (Hi Hl) as [<- Hl1]. by apply Hi'.
    + destruct (Hd Hl) as [<- Hl1]. by apply Hd'.
    + destruct (Ho Hl) as [<- Hl1]. by apply Ho'.
Qed.

(** A scan that returns has read a well-formed list of options. *)
Lemma parse_loop_accepts toks l s s' l' :
  parse_loop w toks l s = (s', Returned l') →
  ∃ its,
    toks = tokens its ∧ Forall well_formed its ∧ NoDup (bindings its).*1 ∧
    (∀ name, name ∈ (bindings its).*1 → args (st_args s) !! name = None) ∧
    Nat.b2n (input_specified l') = Nat.b2n (input_specified l) + count gives_input its ∧
    Nat.b2n (default_specified l') =
      Nat.b2n (default_specified l) + count gives_default its ∧
    Nat.b2n (output_specified l') =
      Nat.b2n (output_specified l) + count gives_output its ∧
    args (st_args s') = bound its ∪ args (st_args s).
Proof.
  revert s' l'. pattern toks, l, s, (parse_loop w toks l s).
  apply parse_loop_ind; clear toks l s.
  - intros l s s' l' [= <- <-]. exists []. unfold count, bound. cbn.
    rewrite !Nat.add_0_r, (left_id_L ∅ (∪)). split_and!; try done.
    + constructor.
    + by intros name ?%elem_of_nil.
  - intros val rest l s _ s' l'. destruct (help_run s) as (evs&ok&Hrun&_).
    unfold mbind, M_bind, bind. by rewrite Hrun.
  - by intros val rest l s msg _ s' l'.
  - intros toks l s toks' l1 s1 Hadv IH s' l' Hrun.
    destruct (IH _ _ Hrun) as (its&->&Hwf&Hnd&Hfresh&Hi&Hd&Ho&Ha). clear IH.
    inversion Hadv as [val file rest l0 s0 Hf Hl contents
                      |val arg rest l0 s0 idx Hf Hidx Hnew
                      |val arg rest l0 s0 Hf Hl
                      |val file rest l0 s0 Hf Hl ok
                      |val rest l0 s0 Hf Hl]; subst.
    + exists (InputFile val file :: its). rewrite tokens_cons, !count_cons.
      change (bindings (_ :: its)) with (bindings its).
      change (bound (_ :: its)) with (bound its).
      cbn in *. rewrite Hl. split_and!; try done. by constructor.
    + destruct (find_split _ _ _ Hidx) as [Harg Hname].
      set (name := substr arg 0 idx) in *.
      set (value := substr_from arg (idx + 1)) in *.
      assert (name ∉ (bindings its).*1) as Hnotin.
      { intros Hin. apply Hfresh in Hin. cbn in Hin.
        by rewrite lookup_insert_eq in Hin. }
      exists (NamedValue val name value :: its). rewrite tokens_cons, !count_cons.
      change (bindings (_ :: its)) with ((name, value) :: bindings its).
      rewrite bound_named, fmap_cons. cbn [fst tokens_of app gives_input gives_default
        gives_output Nat.b2n].
      split_and!; try done.
      * by rewrite Harg at 1.
      * by constructor.
      * by constructor.
      * intros n [->|Hin]%elem_of_cons; [done|].
        apply Hfresh in Hin. cbn in Hin.
        rewrite lookup_insert_ne in Hin; [done|]. intros ->.
        by rewrite lookup_insert_eq in Hin.
      * rewrite Ha. cbn [st_args args set_args].
        rewrite <-insert_union_l, <-insert_union_r; [done|].
        apply not_elem_of_list_to_map_1. by rewrite <-list_fmap_compose.
    + exists (DefaultValue val arg :: its). rewrite tokens_cons, !count_cons.
      change (bindings (_ :: its)) with (bindings its).
      change (bound (_ :: its)) with (bound its).
      cbn in *. rewrite Hl. split_and!; try done. by constructor.
    + exists (OutputFile val file :: its). rewrite tokens_cons, !count_cons.
      change (bindings (_ :: its)) with (bindings its).
      change (bound (_ :: its)) with (bound its).
      cbn in *. rewrite Hl. split_and!; try done. by constructor.
    + exists (Template val :: its). rewrite tokens_cons, !count_cons.
      change (bindings (_ :: its)) with (bindings its).
      change (bound (_ :: its)) with (bound its).
      cbn in *. rewrite Hl. split_and!; try done. by constructor.
Qed.

(** X3. [parse_args] accepts only well-formed vectors: when it returns, the
    tokens after the program name spell a list of options with exactly one
    template (inline or [-i]), exactly one [-d], at most one [-o] and
    [-v NAME=VALUE] options with pairwise distinct names, and the map is the
    one these options describe. *)
Theorem accepted_vectors_are_valid argv s1 :
  parse_args w argv initial = (s1, Returned tt) →
  ∃ its, drop 1 argv = tokens its ∧ valid its ∧ args (st_args s1) = bound its.
Proof.
  rewrite parse_args_unfold.
  destruct (parse_loop w (drop 1 argv) locals_init initial) as [s' [l'| |]] eqn:Hloop;
    [|done..].
  destruct (parse_loop_accepts _ _ _ _ _ Hloop) as (its&Htoks&Hwf&Hnd&_&Hi&Hd&Ho&Ha).
  intros [= <- Hres]. exists its. cbn in Hi, Hd, Ho.
  destruct (input_specified l') eqn:Hil; [|done].
  destruct (default_specified l') eqn:Hdl; [|done].
  split; [done|]. split.
  - split; try done; cbn in *; try lia. destruct (output_specified l'); cbn in *; lia.
  - unfold with_default_sink. destruct (output_specified l'); cbn; rewrite Ha;
      apply (right_id_L ∅ (∪)).
Qed.

(** X4. The exceptions of [parse_args] are the twelve the source raises
    and no other: nine fixed messages, and three built from a token of the
    vector: a [-v] argument without [=], the name of a [-v] argument bound
    before, or a token that is no flag met after the input was set. *)
Theorem usage_errors_are_known argv s1 what :
  parse_args w argv initial = (s1, Threw what) →
  what ∈ ["input was already specified, -i was unexpected";
          "expected argument for -i"; "expected argument for -v";
          "default value already specified"; "expected argument for -d";
          "output already specified"; "expected argument for -o";
          "No input specified (-h for help)"; "No default value specified"] ∨
  (∃ arg, arg ∈ drop 1 argv ∧ find "="%char arg = None ∧
          what = "Could not find value in " +:+ arg) ∨
  (∃ arg idx, arg ∈ drop 1 argv ∧ find "="%char arg = Some idx ∧
              what = "value " +:+ substr arg 0 idx +:+ " was already specified") ∨
  (∃ val, val ∈ drop 1 argv ∧ is_flag val = false ∧
          what = "Unknown extra parameter " +:+ val).
Proof.
  rewrite parse_args_unfold.
  destruct (parse_loop w (drop 1 argv) locals_init initial) as [s' [l'| |]] eqn:Hloop;
    [| |done].
  - intros [= _ Hres]. left.
    destruct (input_specified l'), (default_specified l'); try done;
      injection Hres as <-;
      solve [repeat first [apply list_elem_of_here|apply list_elem_of_further]].
  - intros [= <- <-].
    destruct (parse_loop_throws _ _ _ _ _ Hloop) as (pre&val&rest&l0&->&_&Hrej).
    inversion Hrej; subst;
      try solve [left; repeat first [apply list_elem_of_here|apply list_elem_of_further]].
    + right; left. eexists. split_and!; [|done..].
      apply elem_of_app; right. apply elem_of_cons; right. apply elem_of_cons; by left.
    + right; right; left. do 2 eexists. split_and!; [|done..].
      apply elem_of_app; right. apply elem_of_cons; right. apply elem_of_cons; by left.
    + right; right; right. eexists. split_and!; [|done..].
      apply elem_of_app; right. apply elem_of_cons; by left.
Qed.

(** ** Options given twice, and flags without their argument *)

Lemma parse_args_rejects prog pre val rest s l what :
  parse_loop w pre locals_init initial = (s, Returned l) →
  rejects val rest l (st_args s) what →
  parse_args w (prog :: pre ++ val :: rest) initial = (s, Threw what).
Proof.
  intros Hpre Hrej. rewrite parse_args_unfold, skipn_cons, drop_0.
  by rewrite (parse_loop_app _ _ _ _ _ _ Hpre), (parse_loop_rejects _ _ _ _ _ Hrej).
Qed.

(** X5. The first setting wins.  Once the scan has set the input, the
    default value or the output sink, nothing that follows in the vector
    changes it, however [parse_args] ends. *)
Theorem first_setting_wins prog pre post s l :
  parse_loop w pre locals_init initial = (s, Returned l) →
  let s1 := (parse_args w (prog :: pre ++ post) initial).1 in
  (input_specified l = true → input (st_args s1) = input (st_args s)) ∧
  (default_specified l = true →
     default_value (st_args s1) = default_value (st_args s)) ∧
  (output_specified l = true → out (st_args s1) = out (st_args s)).
Proof.
  intros Hpre s1. subst s1.
  rewrite parse_args_unfold, skipn_cons, drop_0, (parse_loop_app _ _ _ _ _ _ Hpre).
  destruct (parse_loop w post l s) as [s' r] eqn:Hpost.
  destruct (parse_loop_frozen _ _ _ _ _ Hpost) as (Hi&Hd&Ho).
  destruct r as [l'| |]; cbn [fst]; [|split_and!; intros Hl; by
    first [apply Hi|apply Hd|apply Ho]..].
  unfold with_default_sink. split_and!; intros Hl.
  - destruct (Hi Hl) as [<- _]. by destruct (output_specified l').
  - destruct (Hd Hl) as [<- _]. by destruct (output_specified l').
  - destruct (Ho Hl) as [<- Hl']. by rewrite (Hl' l' eq_refl).
Qed.

(** X6. A flag that takes an argument and comes last in the vector makes
    parsing fail: with "expected argument for" and the short name of the
    flag, also when the long name was used, unless the option had been given
    before.  Either way the process ends with status 2. *)
Theorem missing_argument prog pre val s l :
  parse_loop w pre locals_init initial = (s, Returned l) →
  let r := parse_args w (prog :: pre ++ [val]) initial in
  (is_input val = true → input_specified l = false →
     r = (s, Threw "expected argument for -i")) ∧
  (is_val val = true → r = (s, Threw "expected argument for -v")) ∧
  (is_default val = true → default_specified l = false →
     r = (s, Threw "expected argument for -d")) ∧
  (is_output val = true → output_specified l = false →
     r = (s, Threw "expected argument for -o")) ∧
  (is_input val = true ∨ is_val val = true ∨ is_default val = true ∨
   is_output val = true →
     status (main w (prog :: pre ++ [val]) initial) = Some 2%Z).
Proof.
  intros Hpre r. subst r. split_and!.
  - intros Hf Hl. apply (parse_args_rejects _ _ _ _ _ _ _ Hpre). by constructor.
  - intros Hf. apply (parse_args_rejects _ _ _ _ _ _ _ Hpre). by constructor.
  - intros Hf Hl. apply (parse_args_rejects _ _ _ _ _ _ _ Hpre). by constructor.
  - intros Hf Hl. apply (parse_args_rejects _ _ _ _ _ _ _ Hpre). by constructor.
  - intros Hf.
    assert (∃ what, rejects val [] l (st_args s) what) as [what Hrej].
    { destruct Hf as [Hf|[Hf|[Hf|Hf]]].
      - destruct (input_specified l) eqn:Hl; eexists; by constructor.
      - eexists; by constructor.
      - destruct (default_specified l) eqn:Hl; eexists; by constructor.
      - destruct (output_specified l) eqn:Hl; eexists; by constructor. }
    pose proof (parse_args_rejects prog _ _ _ _ _ _ Hpre Hrej) as Hargs.
    by destruct (main_usage_error _ _ _ _ Hargs) as (evs&ok&->&_).
Qed.

(** X7. An option given a second time is an error raised before anything
    is done for it: no file is read or opened, the state is the one the scan
    had reached.  A second [-i], also after an inline template, is "input
    was already specified"; a second inline template, also after [-i], is
    "Unknown extra parameter"; the same holds for [-d] and [-o]. *)
Theorem repeated_option prog pre val rest s l :
  parse_loop w pre locals_init initial = (s, Returned l) →
  let r := parse_args w (prog :: pre ++ val :: rest) initial in
  (is_input val = true → input_specified l = true →
     r = (s, Threw "input was already specified, -i was unexpected")) ∧
  (is_flag val = false → input_specified l = true →
     r = (s, Threw ("Unknown extra parameter " +:+ val))) ∧
  (is_default val = true → default_specified l = true →
     r = (s, Threw "default value already specified")) ∧
  (is_output val = true → output_specified l = true →
     r = (s, Threw "output already specified")).
Proof.
  intros Hpre r. subst r.
  split_and!; intros Hf Hl; apply (parse_args_rejects _ _ _ _ _ _ _ Hpre);
    by constructor.
Qed.

(** ** What [main] adds to the trace of [parse_args] *)

Lemma reads_app tr tr' : reads (tr ++ tr') = reads tr ++ reads tr'.
Proof. apply omap_app. Qed.

Lemma puts_of_reads t texts evs : puts_of t texts evs → reads evs = [].
Proof. induction 1 as [|text e texts evs [ok ->] _ IH]; done. Qed.

Lemma release_quiet o :
  opened (release o) = [] ∧ reads (release o) = [] ∧ compilations (release o) = [] ∧
  renderings (release o) = [] ∧ (∀ t, inserted t (release o) = []) ∧
  deletes (release o) = owned o.
Proof. by destruct o as [[? [?|]]|]. Qed.

(** The events of [main] proper, between those of [parse_args] and the
    release of the sink: none when [parse_args] exits; one line on standard
    error and nothing else when it throws; otherwise one compilation,
    followed by one line on standard error, or by a rendering and one line
    on standard error, or by a rendering and the insertion of the text into
    the sink. *)
Lemma main_shape argv s1 r1 :
  parse_args w argv initial = (s1, r1) →
  ∃ mid,
    trace (main w argv initial) =
      st_trace s1 ++ mid ++
      match r1 with Exited _ => [] | _ => release (out (st_args s1)) end ∧
    opened mid = [] ∧ reads mid = [] ∧ deletes mid = [] ∧
    match r1 with
    | Exited code => mid = [] ∧ (main w argv initial).2 = Exited code
    | Threw _ =>
        (main w argv initial).2 = Returned 2%Z ∧
        compilations mid = [] ∧ renderings mid = [] ∧
        ∀ t, t ≠ Cerr → inserted t mid = []
    | Returned _ =>
        compilations mid = [(input (st_args s1), globals_of (st_args s1))] ∧
        (((main w argv initial).2 = Returned 1%Z ∧ length (renderings mid) ≤ 1 ∧
          ∀ t, t ≠ Cerr → inserted t mid = []) ∨
         (∃ text sw, (main w argv initial).2 = Returned 0%Z ∧
            renderings mid = [tt] ∧ out (st_args s1) = Some sw ∧
            ∀ t, inserted t mid =
                 if decide (os_target (ostream_ sw) = t) then [text] else []))
    end.
Proof.
  intros Hargs. destruct r1 as [[]|what|code].
  - destruct (get_interpolation (input (st_args s1)) (globals_of (st_args s1)))
      as [constructor|what] eqn:Hc.
    + destruct (construct_with constructor (default_value (st_args s1))
                  (map_to_list (args (st_args s1)))) as [text|what] eqn:Hr.
      * destruct (parse_args_sink _ _ _ sink_inv_initial Hargs) as (sw&Hsw&_).
        destruct (main_success _ _ _ _ _ _ Hargs Hc Hr Hsw) as [Hres Htrace].
        eexists. rewrite Htrace, Hsw, (app_assoc [_; _]).
        split_and!; [reflexivity|done..|]. right.
        exists text, sw. split_and!; try done.
        intros t. cbn. by destruct (decide _).
      * destruct (main_execution_error _ _ _ _ _ Hargs Hc Hr) as (evs&ok&->&Hputs).
        destruct (puts_of_quiet _ _ _ Hputs) as (Ho&Hd&Hpc&Hpr).
        pose proof (puts_of_reads _ _ _ Hputs) as Hrd.
        exists ([EvCompile (input (st_args s1)) (globals_of (st_args s1)); EvRender] ++
                evs ++ [EvFlush Cerr ok]).
        unfold trace, add_events. cbn [fst snd st_trace].
        split_and!.
        -- by rewrite <-!app_assoc.
        -- obs. by rewrite Ho.
        -- rewrite !reads_app. by rewrite Hrd.
        -- obs. by rewrite Hd.
        -- obs. by rewrite Hpc.
        -- left. split_and!; [done|..].
           ++ obs. rewrite Hpr. cbn. lia.
           ++ intros t Ht. obs. by rewrite (puts_of_inserted_ne Cerr t _ _ ltac:(done) Hputs).
    + destruct (main_syntax_error _ _ _ _ Hargs Hc) as (evs&ok&->&Hputs).
      destruct (puts_of_quiet _ _ _ Hputs) as (Ho&Hd&Hpc&Hpr).
      pose proof (puts_of_reads _ _ _ Hputs) as Hrd.
      exists ([EvCompile (input (st_args s1)) (globals_of (st_args s1))] ++
              evs ++ [EvFlush Cerr ok]).
      unfold trace, add_events. cbn [fst snd st_trace].
      split_and!.
      * by rewrite <-!app_assoc.
      * obs. by rewrite Ho.
      * rewrite !reads_app. by rewrite Hrd.
      * obs. by rewrite Hd.
      * obs. by rewrite Hpc.
      * left. split_and!; [done|..].
        -- obs. rewrite Hpr. cbn. lia.
        -- intros t Ht. obs. by rewrite (puts_of_inserted_ne Cerr t _ _ ltac:(done) Hputs).
  - destruct (main_usage_error _ _ _ _ Hargs) as (evs&ok&->&Hputs).
    destruct (puts_of_quiet _ _ _ Hputs) as (Ho&Hd&Hpc&Hpr).
    pose proof (puts_of_reads _ _ _ Hputs) as Hrd.
    exists (evs ++ [EvFlush Cerr ok]).
    unfold trace, add_events. cbn [fst snd st_trace].
    split_and!.
    + by rewrite <-!app_assoc.
    + obs. by rewrite Ho.
    + rewrite !reads_app. by rewrite Hrd.
    + obs. by rewrite Hd.
    + done.
    + obs. by rewrite Hpc.
    + obs. by rewrite Hpr.
    + intros t Ht. obs. by rewrite (puts_of_inserted_ne Cerr t _ _ ltac:(done) Hputs).
  - exists []. rewrite (main_exited _ _ _ _ Hargs). unfold trace. cbn [fst snd].
    by rewrite !app_nil_r.
Qed.

(** ** Files *)

(** X8. No run opens more than one output stream, and a run that ends in
    [std::exit] releases none: the stream that [-o] opened before [-h] was
    met is left to the operating system. *)
Theorem at_most_one_stream argv :
  let tr := trace (main w argv initial) in
  length (opened tr) ≤ 1 ∧
  ∀ code, (main w argv initial).2 = Exited code → deletes tr = [].
Proof.
  intros tr. subst tr.
  destruct (parse_args w argv initial) as [s1 r1] eqn:Hargs.
  destruct (parse_args_balanced _ _ _ _ sink_inv_initial Hargs) as [Hdel Hown].
  destruct (main_shape _ _ _ Hargs) as (mid&->&Hmo&_&Hmd&Hshape).
  destruct (release_quiet (out (st_args s1))) as (Hro&_&_&_&_&Hrd).
  split.
  - obs. rewrite Hmo. assert (length (opened (st_trace s1)) ≤ 1) as Hlen.
    { rewrite <-(length_fmap fst), Hown. destruct (out (st_args s1)) as [[? [?|]]|];
        cbn; lia. }
    destruct r1; rewrite ?Hro; cbn; rewrite ?app_nil_r; lia.
  - intros code Hexit. destruct r1 as [[]|what|code'].
    + destruct Hshape as [_ [[Hres _]|(?&?&Hres&_)]]; congruence.
    + destruct Hshape as [Hres _]. congruence.
    + obs. by rewrite Hdel, Hmd.
Qed.

(** The loop opens a stream only for an output flag and reads a file only
    for an input flag. *)
Lemma parse_loop_files toks l s s' r :
  parse_loop w toks l s = (s', r) →
  ((∀ val, val ∈ toks → is_output val = false) →
     opened (st_trace s') = opened (st_trace s) ∧
     deletes (st_trace s') = deletes (st_trace s)) ∧
  ((∀ val, val ∈ toks → is_input val = false) →
     reads (st_trace s') = reads (st_trace s)).
Proof.
  revert s' r. pattern toks, l, s, (parse_loop w toks l s).
  apply parse_loop_ind; clear toks l s.
  - by intros l s s' r [= <- <-].
  - intros val rest l s _ s' r. destruct (help_run s) as (evs&ok&Hrun&Hputs).
    unfold mbind, M_bind, bind. rewrite Hrun. intros [= <- <-].
    destruct (puts_of_quiet _ _ _ Hputs) as (Ho&Hd&_).
    unfold add_events. cbn [st_trace]. obs. rewrite !reads_app.
    rewrite Ho, Hd, (puts_of_reads _ _ _ Hputs). clear Hputs Hrun.
    by rewrite !app_nil_r.
  - by intros val rest l s msg _ s' r [= <- <-].
  - intros toks l s toks' l1 s1 Hadv IH s' r Hrun.
    destruct (IH _ _ Hrun) as [IHo IHi]. clear IH.
    destruct (advances_consumed _ _ _ _ _ _ Hadv) as (consumed&Htoks&_).
    assert (∀ val, val ∈ toks' → val ∈ toks) as Hsub.
    { intros val Hin. rewrite Htoks. apply elem_of_app. by right. }
    split.
    + intros Hno. destruct IHo as [-> ->]; [by auto|].
      destruct Hadv as [| | |val file rest l s Hf|]; cbn [st_trace]; obs;
        rewrite ?app_nil_r; try done.
      pose proof (Hno val (list_elem_of_here _ _)) as Hv. congruence.
    + intros Hno. rewrite IHi by auto.
      destruct Hadv as [val file rest l s Hf| | | |]; cbn [st_trace];
        rewrite ?reads_app, ?app_nil_r; try done.
      * pose proof (Hno val (list_elem_of_here _ _)) as Hv. congruence.
      * destruct (release_quiet (out (st_args s))) as (_&->&_). cbn.
        by rewrite !app_nil_r.
Qed.

(** X9. Without [-o] or [--output] among the tokens no stream is opened
    or released and nothing is inserted into a file; without [-i] or
    [--input] among the tokens no file is read. *)
Theorem no_flag_no_file argv :
  let tr := trace (main w argv initial) in
  ((∀ val, val ∈ drop 1 argv → is_output val = false) →
     opened tr = [] ∧ deletes tr = [] ∧ ∀ file, inserted (File file) tr = []) ∧
  ((∀ val, val ∈ drop 1 argv → is_input val = false) → reads tr = []).
Proof.
  intros tr. subst tr.
  destruct (parse_args w argv initial) as [s1 r1] eqn:Hargs.
  destruct (parse_args_balanced _ _ _ _ sink_inv_initial Hargs) as [Hdel Hown].
  destruct (main_shape _ _ _ Hargs) as (mid&->&Hmo&Hmr&Hmd&Hshape).
  destruct (release_quiet (out (st_args s1))) as (Hro&Hrr&_&_&Hri&Hrd).
  assert (∃ s0 r0, parse_loop w (drop 1 argv) locals_init initial = (s0, r0) ∧
                   st_trace s1 = st_trace s0 ++
                     match r0 with
                     | Returned l => if output_specified l then []
                                     else release (out (st_args s0))
                     | _ => []
                     end) as (s0&r0&Hloop&Htr).
  { pose proof Hargs as Hargs'. rewrite parse_args_unfold in Hargs'.
    destruct (parse_loop w (drop 1 argv) locals_init initial) as [s0 r0].
    exists s0, r0. split; [done|].
    destruct r0 as [l| |]; injection Hargs' as <- _; rewrite ?app_nil_r; try done.
    unfold with_default_sink. destruct (output_specified l); cbn;
      by rewrite ?app_nil_r. }
  destruct (parse_loop_files _ _ _ _ _ Hloop) as [Hfo Hfi].
  assert (reads (st_trace s1) = reads (st_trace s0)) as Hreads1.
  { rewrite Htr, reads_app.
    destruct r0 as [l| |]; rewrite ?app_nil_r; try done.
    destruct (output_specified l); rewrite ?app_nil_r; [done|].
    destruct (release_quiet (out (st_args s0))) as (_&->&_). by rewrite app_nil_r. }
  split.
  - intros Hno. destruct (Hfo Hno) as [Hopen _].
    assert (opened (st_trace s1) = []) as Ho1.
    { rewrite Htr, opened_app, Hopen.
      destruct r0 as [l| |]; try done. destruct (output_specified l); [done|].
      by destruct (release_quiet (out (st_args s0))) as (->&_). }
    assert (owned (out (st_args s1)) = []) as Hnone by by rewrite <-Hown, Ho1.
    assert (∀ file, inserted (File file) (st_trace s1) = []) as Hins1.
    { intros file. destruct (parse_args_trace _ _ _ _ Hargs) as (evs0&Hevs&Hr1).
      rewrite Hevs. cbn [initial st_trace app].
      destruct r1 as [[]|what|code].
      - by destruct (scan_events_quiet _ Hr1) as (->&_).
      - by destruct (scan_events_quiet _ Hr1) as (->&_).
      - destruct Hr1 as (_&evs1&evs2&ok&->&(Hq&_)%scan_events_quiet&Hputs).
        obs. rewrite Hq.
        rewrite (puts_of_inserted_ne Cout (File file) _ _ ltac:(done) Hputs).
        reflexivity. }
    split_and!.
    + obs. rewrite Ho1, Hmo. destruct r1; by rewrite ?Hro.
    + obs. rewrite Hdel, Hmd. destruct r1; by rewrite ?Hrd, ?Hnone.
    + intros file. obs. rewrite Hins1.
      assert (inserted (File file) mid = []) as ->.
      { destruct r1 as [[]|what|code].
        - destruct Hshape as [_ [(_&_&Hq)|(text&sw&_&_&Hsw&Hq)]]; [by apply Hq|].
          rewrite Hq. destruct (decide _) as [Ht|]; [|done].
          destruct (parse_args_sink _ _ _ sink_inv_initial Hargs) as (sw'&Hsw'&Hkind).
          rewrite Hsw in Hsw'. injection Hsw' as <-.
          destruct Hkind as [[-> _]|(f&ok&->&Hop)]; [done|]. by rewrite Ho1 in Hop.
        - destruct Hshape as (_&_&_&Hq). by apply Hq.
        - by destruct Hshape as [-> _]. }
      destruct r1; by rewrite ?Hri.
  - intros Hno. rewrite !reads_app, Hreads1, (Hfi Hno), Hmr.
    destruct r1; by rewrite ?Hrr.
Qed.

(** ** The sink and the stages *)

(** X10. The rendered text goes to one place and only on success.  A run
    that returns 1 or 2 inserts nothing into standard output or into a
    file.  A run that returns 0 inserts one text: into standard output when
    no stream was opened, and otherwise into the stream that was opened and
    not into standard output. *)
Theorem output_to_one_sink argv code :
  (main w argv initial).2 = Returned code →
  let tr := trace (main w argv initial) in
  (code ≠ 0%Z → inserted Cout tr = [] ∧ ∀ file, inserted (File file) tr = []) ∧
  (code = 0%Z →
     ∃ text,
       (opened tr = [] ∧ inserted Cout tr = [text] ∧
        ∀ file, inserted (File file) tr = []) ∨
       (∃ file ok, opened tr = [(file, ok)] ∧ inserted (File file) tr = [text] ∧
                   inserted Cout tr = [] ∧
                   ∀ file', file' ≠ file → inserted (File file') tr = [])).
Proof.
  intros Hret tr. subst tr.
  destruct (parse_args w argv initial) as [s1 r1] eqn:Hargs.
  destruct (main_shape _ _ _ Hargs) as (mid&Htrace&Hmo&_&_&Hshape).
  destruct (release_quiet (out (st_args s1))) as (Hro&_&_&_&Hri&_).
  destruct (parse_args_trace _ _ _ _ Hargs) as (evs0&Hevs&Hr1).
  destruct r1 as [[]|what|code'];
    [| |destruct Hshape as [_ Hres]; congruence].
  - destruct (scan_events_quiet _ Hr1) as (Hq&_).
    rewrite Htrace, Hevs. cbn [initial st_trace app].
    destruct Hshape as [_ [(Hres&_&Hmq)|(text&sw&Hres&_&Hsw&Hmq)]].
    + rewrite Hres in Hret. injection Hret as <-. split; [|done]. intros _.
      split; [|intros file]; obs; rewrite Hq, Hri, Hmq; done.
    + rewrite Hres in Hret. injection Hret as <-. split; [done|]. intros _.
      exists text.
      destruct (parse_args_sink _ _ _ sink_inv_initial Hargs) as (sw'&Hsw'&Hkind).
      rewrite Hsw in Hsw'. injection Hsw' as <-.
      rewrite Hevs in Hkind. cbn [initial st_trace app] in Hkind.
      destruct Hkind as [[-> Hop]|(file&ok&->&Hop)].
      * left. split_and!.
        -- obs. by rewrite Hop, Hmo, Hro.
        -- obs. rewrite Hq, Hri, Hmq. done.
        -- intros file. obs. rewrite Hq, Hri, Hmq. done.
      * right. exists file, ok. split_and!.
        -- obs. by rewrite Hop, Hmo, Hro.
        -- obs. rewrite Hq, Hri, Hmq. cbn. by rewrite decide_True.
        -- obs. rewrite Hq, Hri, Hmq. done.
        -- intros file' Hne. obs. rewrite Hq, Hri, Hmq. cbn.
           rewrite decide_False; [done|]. by intros [= ->].
  - destruct (scan_events_quiet _ Hr1) as (Hq&_).
    rewrite Htrace, Hevs. cbn [initial st_trace app].
    destruct Hshape as (Hres&_&_&Hmq).
    rewrite Hres in Hret. injection Hret as <-. split; [|done]. intros _.
    split; [|intros file]; obs; rewrite Hq, Hri, Hmq; done.
Qed.

(** X11. The stages run in order and at most once.  The engine is asked
    to compile exactly when [parse_args] returned, and to render exactly
    when, moreover, the compilation succeeded. *)
Theorem stages_in_order argv :
  let tr := trace (main w argv initial) in
  let r1 := parse_args w argv initial in
  (compilations tr ≠ [] ↔ r1.2 = Returned tt) ∧
  (renderings tr ≠ [] ↔
     r1.2 = Returned tt ∧
     ∃ constructor, get_interpolation (input (st_args r1.1)) (globals_of (st_args r1.1)) =
                      Value constructor) ∧
  length (compilations tr) ≤ 1 ∧ length (renderings tr) ≤ 1.
Proof.
  intros tr r1. subst tr r1.
  destruct (parse_args w argv initial) as [s1 r1] eqn:Hargs. cbn [fst snd].
  destruct (parse_args_trace _ _ _ _ Hargs) as (evs0&Hevs&Hr1).
  cbn [initial st_trace app] in Hevs.
  destruct r1 as [[]|what|code].
  - destruct (scan_events_quiet _ Hr1) as (_&Hc0&Hr0).
    destruct (get_interpolation (input (st_args s1)) (globals_of (st_args s1)))
      as [constructor|what] eqn:Hc.
    + destruct (construct_with constructor (default_value (st_args s1))
                  (map_to_list (args (st_args s1)))) as [text|what] eqn:Hr.
      * destruct (parse_args_sink _ _ _ sink_inv_initial Hargs) as (sw&Hsw&_).
        destruct (main_success _ _ _ _ _ _ Hargs Hc Hr Hsw) as [_ ->].
        rewrite Hevs. obs. rewrite Hc0, Hr0.
        assert (compilations (release (Some sw)) = [] ∧
                renderings (release (Some sw)) = []) as [-> ->]
          by by destruct sw as [? [?|]].
        cbn. split_and!; try lia; split; try done; eauto.
      * destruct (main_execution_error _ _ _ _ _ Hargs Hc Hr) as (evs&ok&->&Hputs).
        destruct (puts_of_quiet _ _ _ Hputs) as (_&_&Hpc&Hpr).
        destruct (release_quiet (out (st_args s1))) as (_&_&Hrc&Hrr&_).
        unfold trace, add_events. cbn [fst st_trace]. rewrite Hevs. obs.
        rewrite Hc0, Hr0, Hpc, Hpr, Hrc, Hrr.
        cbn. split_and!; try lia; split; try done; eauto.
    + destruct (main_syntax_error _ _ _ _ Hargs Hc) as (evs&ok&->&Hputs).
      destruct (puts_of_quiet _ _ _ Hputs) as (_&_&Hpc&Hpr).
      destruct (release_quiet (out (st_args s1))) as (_&_&Hrc&Hrr&_).
      unfold trace, add_events. cbn [fst st_trace]. rewrite Hevs. obs.
      rewrite Hc0, Hr0, Hpc, Hpr, Hrc, Hrr.
      cbn. split_and!; try lia; split; try done.
      by intros [_ [? ?]].
  - destruct (scan_events_quiet _ Hr1) as (_&Hc0&Hr0).
    destruct (main_usage_error _ _ _ _ Hargs) as (evs&ok&->&Hputs).
    destruct (puts_of_quiet _ _ _ Hputs) as (_&_&Hpc&Hpr).
    destruct (release_quiet (out (st_args s1))) as (_&_&Hrc&Hrr&_).
    unfold trace, add_events. cbn [fst st_trace]. rewrite Hevs. obs.
    rewrite Hc0, Hr0, Hpc, Hpr, Hrc, Hrr.
    cbn. split_and!; try lia; split; try done. by intros [? _].
  - destruct Hr1 as (_&evs1&evs2&ok&->&(_&Hc0&Hr0)%scan_events_quiet&Hputs).
    destruct (puts_of_quiet _ _ _ Hputs) as (_&_&Hpc&Hpr). clear Hputs.
    rewrite (main_exited _ _ _ _ Hargs). unfold trace. cbn [fst]. rewrite Hevs. obs.
    rewrite Hc0, Hr0, Hpc, Hpr.
    cbn. split_and!; try lia; split; try done. by intros [? _].
Qed.

(** ** What reaches the engine, and what the model holds *)

Lemma valid_parse prog its :
  valid its →
  ∃ s' l', parse_loop w (tokens its) locals_init initial = (s', Returned l') ∧
           parse_args w (prog :: tokens its) initial =
             (with_default_sink l' s', Returned tt) ∧
           args (st_args (with_default_sink l' s')) = bound its.
Proof.
  intros [Hwf Hi Hd Ho Hnd].
  destruct (parse_loop_items its locals_init initial) as (s'&l'&Hrun&Hi'&Hd'&Ha);
    try done; cbn; try lia.
  exists s', l'. split; [done|]. split.
  - rewrite parse_args_unfold, skipn_cons, drop_0, Hrun.
    cbn in Hi', Hd'. rewrite Hi in Hi'. rewrite Hd in Hd'.
    by destruct (input_specified l'), (default_specified l').
  - unfold with_default_sink. destruct (output_specified l'); cbn; rewrite Ha;
      apply (right_id_L ∅ (∪)).
Qed.


(** X13. The output file is opened as soon as its option is read, before
    the rest of the vector is looked at: whatever follows, and whether or
    not the invocation then fails, the trace of the run holds this opening
    and no other, and a run that returns releases the stream. *)
Theorem output_file_opened_at_once prog pre val file post s l :
  parse_loop w pre locals_init initial = (s, Returned l) →
  is_output val = true → output_specified l = false →
  let argv := prog :: pre ++ val :: file :: post in
  let tr := trace (main w argv initial) in
  opened tr = [(file, ofstream_opens w (st_trace s) file)] ∧
  ∀ code, (main w argv initial).2 = Returned code → deletes tr = [file].
Proof.
  intros Hpre Hf Hl argv tr. subst tr.
  destruct (parse_loop_sink _ _ _ _ _ sink_inv_initial Hpre) as (l0&Hinv&Hl0).
  specialize (Hl0 l eq_refl) as ->. destruct Hinv as [Hdel Hout].
  destruct (out (st_args s)) as [sw|] eqn:Hnull; [destruct Hout; congruence|].
  destruct Hout as [_ Hop].
  set (ok := ofstream_opens w (st_trace s) file).
  set (sw := {| ostream_ := {| os_target := File file; os_good := ok |};
                deleter_ := Some file |}).
  set (s1 := {| st_args := set_out (st_args s) (Some sw);
                st_trace := (st_trace s ++ [EvNew file ok]) ++ release None |}).
  assert (parse_loop w (drop 1 argv) locals_init initial =
            parse_loop w post (set_output_specified l) s1) as Hloop.
  { subst argv. rewrite skipn_cons, drop_0, (parse_loop_app _ _ _ _ _ _ Hpre).
    rewrite (parse_loop_advances _ _ _ _ _ _ (adv_output w val file post l s Hf Hl)).
    cbn zeta. by rewrite Hnull. }
  assert (sink_inv (set_output_specified l) s1) as Hinv1.
  { split; cbn; obs; rewrite ?Hdel, ?Hop; [done|]. split; [done|].
    by exists file, ok. }
  destruct (parse_args w argv initial) as [s2 r2] eqn:Hargs.
  assert (out (st_args s2) = Some sw ∧ opened (st_trace s2) = [(file, ok)])
    as [Hout2 Hop2].
  { revert Hargs. rewrite parse_args_unfold, Hloop.
    destruct (parse_loop w post (set_output_specified l) s1) as [s' r'] eqn:Hpost.
    destruct (parse_loop_frozen _ _ _ _ _ Hpost) as (_&_&Ho).
    destruct (Ho eq_refl) as [Hout' Hl'].
    destruct (parse_loop_sink _ _ _ _ _ Hinv1 Hpost) as (l'&[_ Hinv']&_).
    rewrite Hout' in Hinv'. cbn in Hinv'.
    destruct Hinv' as (_&file'&ok'&[= <- <-]&Hop').
    destruct r' as [l''| |]; intros [= <- _]; try done.
    unfold with_default_sink. by rewrite (Hl' l'' eq_refl). }
  destruct (main_shape _ _ _ Hargs) as (mid&->&Hmo&_&Hmd&Hshape).
  destruct (parse_args_balanced _ _ _ _ sink_inv_initial Hargs) as [Hdel2 _].
  split.
  - obs. rewrite Hop2, Hmo. destruct r2; rewrite ?Hout2; by cbn.
  - intros code Hret. obs. rewrite Hdel2, Hmd.
    destruct r2 as [[]|what|code']; rewrite ?Hout2; try done.
    destruct Hshape as [_ Hres]. congruence.
Qed.

Ltac head_or_tail Hin :=
  apply elem_of_cons in Hin as [Hin|Hin];
  [first [discriminate Hin|inversion Hin; subst; clear Hin]|].

Lemma parse_loop_items_model its : ∀ l s s' l',
  Forall well_formed its →
  Nat.b2n (input_specified l) + count gives_input its ≤ 1 →
  Nat.b2n (default_specified l) + count gives_default its ≤ 1 →
  Nat.b2n (output_specified l) + count gives_output its ≤ 1 →
  parse_loop w (tokens its) l s = (s', Returned l') →
  (∀ text, Template text ∈ its → input (st_args s') = text) ∧
  (∀ flag file, InputFile flag file ∈ its →
     ∃ tr, input (st_args s') = default "" (ifstream_contents w tr file)) ∧
  (∀ flag value, DefaultValue flag value ∈ its →
     default_value (st_args s') = make_data value) ∧
  (∀ flag file, OutputFile flag file ∈ its →
     ∃ ok, out (st_args s') =
             Some {| ostream_ := {| os_target := File file; os_good := ok |};
                     deleter_ := Some file |}) ∧
  Nat.b2n (output_specified l') = Nat.b2n (output_specified l) + count gives_output its ∧
  (count gives_output its = 0 → out (st_args s') = out (st_args s)).
Proof.
  induction its as [|it its IH]; intros l s s' l' Hwf Hi Hd Ho Hrun.
  { injection Hrun as <- <-. unfold count. cbn. rewrite Nat.add_0_r.
    split_and!; try done; by intros * ?%elem_of_nil. }
  apply Forall_cons in Hwf as [Hit Hwf].
  rewrite tokens_cons in Hrun. rewrite !count_cons in *.
  destruct it as [text|flag file|flag value|flag name value|flag file];
    cbn [tokens_of app gives_input gives_default gives_output well_formed Nat.b2n] in *.
  - assert (input_specified l = false) as Hl by (destruct (input_specified l); cbn in *; lia).
    rewrite (parse_loop_advances _ _ _ _ _ _ (adv_bare w text (tokens its) l s Hit Hl))
      in Hrun.
    destruct (parse_loop_frozen _ _ _ _ _ Hrun) as ([Hfz _]&_&_); [done|].
    rewrite Hl in Hi.
    edestruct IH as (IH1&IH2&IH3&IH4&IH5&IH6);
      [exact Hwf| | | |exact Hrun|]; [cbn in *; lia..|].
    split_and!; try done.
    + intros text' Hin. head_or_tail Hin; [done|by apply IH1].
    + intros flag file Hin. head_or_tail Hin. by eapply IH2.
    + intros flag value Hin. head_or_tail Hin. by eapply IH3.
    + intros flag file Hin. head_or_tail Hin. by eapply IH4.
  - assert (input_specified l = false) as Hl by (destruct (input_specified l); cbn in *; lia).
    rewrite (parse_loop_advances _ _ _ _ _ _ (adv_input w flag file (tokens its) l s Hit Hl))
      in Hrun.
    destruct (parse_loop_frozen _ _ _ _ _ Hrun) as ([Hfz _]&_&_); [done|].
    rewrite Hl in Hi.
    edestruct IH as (IH1&IH2&IH3&IH4&IH5&IH6);
      [exact Hwf| | | |exact Hrun|]; [cbn in *; lia..|].
    split_and!; try done.
    + intros text' Hin. head_or_tail Hin. by apply IH1.
    + intros flag' file' Hin. head_or_tail Hin; [|by eapply IH2].
      exists (st_trace s). by rewrite Hfz.
    + intros flag' value Hin. head_or_tail Hin. by eapply IH3.
    + intros flag' file' Hin. head_or_tail Hin. by eapply IH4.
  - assert (default_specified l = false) as Hl
      by (destruct (default_specified l); cbn in *; lia).
    rewrite (parse_loop_advances _ _ _ _ _ _
               (adv_default w flag value (tokens its) l s Hit Hl)) in Hrun.
    destruct (parse_loop_frozen _ _ _ _ _ Hrun) as (_&[Hfz _]&_); [done|].
    rewrite Hl in Hd.
    edestruct IH as (IH1&IH2&IH3&IH4&IH5&IH6);
      [exact Hwf| | | |exact Hrun|]; [cbn in *; lia..|].
    split_and!; try done.
    + intros text' Hin. head_or_tail Hin. by apply IH1.
    + intros flag' file' Hin. head_or_tail Hin. by eapply IH2.
    + intros flag' value' Hin. head_or_tail Hin; [done|by eapply IH3].
    + intros flag' file' Hin. head_or_tail Hin. by eapply IH4.
  - destruct Hit as [Hflag Hname]. rewrite parse_loop_val in Hrun by done.
    destruct (args (st_args s) !! name); [done|].
    destruct (IH _ _ _ _ Hwf Hi Hd Ho Hrun) as (IH1&IH2&IH3&IH4&IH5&IH6).
    split_and!; try done.
    + intros text' Hin. head_or_tail Hin. by apply IH1.
    + intros flag' file' Hin. head_or_tail Hin. by eapply IH2.
    + intros flag' value' Hin. head_or_tail Hin. by eapply IH3.
    + intros flag' file' Hin. head_or_tail Hin. by eapply IH4.
  - assert (output_specified l = false) as Hl
      by (destruct (output_specified l); cbn in *; lia).
    rewrite (parse_loop_advances _ _ _ _ _ _
               (adv_output w flag file (tokens its) l s Hit Hl)) in Hrun.
    destruct (parse_loop_frozen _ _ _ _ _ Hrun) as (_&_&[Hfz _]); [done|].
    rewrite Hl in Ho.
    edestruct IH as (IH1&IH2&IH3&IH4&IH5&IH6);
      [exact Hwf| | | |exact Hrun|]; [cbn in *; lia..|].
    split_and!; try done.
    + intros text' Hin. head_or_tail Hin. by apply IH1.
    + intros flag' file' Hin. head_or_tail Hin. by eapply IH2.
    + intros flag' value' Hin. head_or_tail Hin. by eapply IH3.
    + intros flag' file' Hin. head_or_tail Hin; [|by eapply IH4].
      eexists. by rewrite Hfz.
    + rewrite IH5, Hl. cbn. lia.
Qed.

(** X14. For a well-formed vector the model holds what was supplied: the
    inline template, or what reading the [-i] file gave (the empty string
    when it could not be opened); [make_data] of the [-d] value; a wrapper
    around the stream of the [-o] file that owns it, or, without [-o], a
    wrapper around standard output that owns nothing. *)
Theorem valid_vector_fills_model prog its :
  valid its →
  ∃ s1,
    parse_args w (prog :: tokens its) initial = (s1, Returned tt) ∧
    (∀ text, Template text ∈ its → input (st_args s1) = text) ∧
    (∀ flag file, InputFile flag file ∈ its →
       ∃ tr, input (st_args s1) = default "" (ifstream_contents w tr file)) ∧
    (∀ flag value, DefaultValue flag value ∈ its →
       default_value (st_args s1) = make_data value) ∧
    (∀ flag file, OutputFile flag file ∈ its →
       ∃ ok, out (st_args s1) =
               Some {| ostream_ := {| os_target := File file; os_good := ok |};
                       deleter_ := Some file |}) ∧
    (count gives_output its = 0 →
       out (st_args s1) = Some {| ostream_ := cout; deleter_ := None |}).
Proof.
  intros Hvalid. destruct (valid_parse prog its Hvalid) as (s'&l'&Hrun&Hargs&_).
  destruct Hvalid as [Hwf Hi Hd Ho Hnd].
  edestruct (parse_loop_items_model its) as (M1&M2&M3&M4&M5&M6);
    [exact Hwf| | | |exact Hrun|]; [cbn; lia..|].
  exists (with_default_sink l' s'). split; [done|].
  assert (input (st_args (with_default_sink l' s')) = input (st_args s') ∧
          default_value (st_args (with_default_sink l' s')) = default_value (st_args s'))
    as [-> ->] by (unfold with_default_sink; by destruct (output_specified l')).
  split_and!; try done.
  - intros flag file Hin. destruct (M4 _ _ Hin) as [ok Hout]. exists ok.
    assert (0 < count gives_output its) as Hpos.
    { clear -Hin. induction its as [|it its IH]; [by apply elem_of_nil in Hin|].
      rewrite count_cons. apply elem_of_cons in Hin as [<-|Hin]; cbn; [lia|].
      specialize (IH Hin). lia. }
    unfold with_default_sink. cbn in M5.
    destruct (output_specified l'); [done|cbn in M5; lia].
  - intros Hnone. unfold with_default_sink. cbn in M5. rewrite Hnone in M5.
    by destruct (output_specified l').
Qed.

(** X16. A failed write is silent.  Once the template is rendered the run
    returns 0 and reports nothing, whatever becomes of the insertion: the
    text is written when the sink is in good state and the system accepts
    it, and lost otherwise; the flush follows in either case. *)
Theorem write_failure_is_silent argv s1 constructor text :
  parse_args w argv initial = (s1, Returned tt) →
  get_interpolation (input (st_args s1)) (globals_of (st_args s1)) = Value constructor →
  construct_with constructor (default_value (st_args s1))
    (map_to_list (args (st_args s1))) = Value text →
  ∃ sw,
    out (st_args s1) = Some sw ∧
    let t := os_target (ostream_ sw) in
    let requests := [EvCompile (input (st_args s1)) (globals_of (st_args s1)); EvRender] in
    let ok := os_good (ostream_ sw) &&
              ostream_accepts w (st_trace s1 ++ requests) t text in
    let tr := trace (main w argv initial) in
    status (main w argv initial) = Some 0%Z ∧ inserted Cerr tr = [] ∧
    written t tr = (if ok then [text] else []) ∧
    EvFlush t ok ∈ tr.
Proof.
  intros Hargs Hc Hr.
  destruct (parse_args_sink _ _ _ sink_inv_initial Hargs) as (sw&Hsw&Hkind).
  exists sw. split; [done|]. cbn zeta.
  destruct (main_success _ _ _ _ _ _ Hargs Hc Hr Hsw) as [Hres ->].
  destruct (parse_args_trace _ _ _ _ Hargs) as (evs0&Hevs&Hscan).
  destruct (scan_events_quiet _ Hscan) as (Hq&_).
  assert (∀ t, written t evs0 = []) as Hw.
  { intros t. clear -Hscan. induction Hscan as [|e evs He _ IH]; [done|].
    by destruct e. }
  unfold status. rewrite Hres. split; [done|].
  rewrite Hevs. cbn [initial st_trace app]. split_and!.
  - obs. rewrite Hq. by destruct Hkind as [[-> _]|(file&ok&->&_)].
  - obs. rewrite Hw.
    destruct Hkind as [[-> _]|(file&ok&->&_)]; cbn;
      match goal with |- context [if ?b then [text] else []] => destruct b end;
      cbn; by rewrite ?decide_True.
  - apply elem_of_app; right.
    do 3 apply list_elem_of_further. apply list_elem_of_here.
Qed.

End Verification.


(** * Concrete runs

    The theorems above applied to concrete argument vectors, and the runs on
    which the specification and the program differ, with the sample engine
    and the sample worlds. *)

Module Runs.
Import Sample.

Lemma greeting_valid : valid greeting.
Proof.
  split.
  - repeat constructor.
  - reflexivity.
  - reflexivity.
  - cbv. lia.
  - apply (bool_decide_unpack _). reflexivity.
Defined.

Lemma valid_vector_parses_witness :
  valid greeting ∧
  ∃ s1, parse_args friendly ("siplus" :: tokens greeting) initial = (s1, Returned tt) ∧
        ∀ name d, args (st_args s1) !! name = Some d ↔
                  ∃ value, (name, value) ∈ bindings greeting ∧ d = make_data value.
Proof.
  split; [exact greeting_valid|].
  exact (valid_vector_parses friendly "siplus" greeting greeting_valid).
Defined.

(** [siplus -h] is not the only way to write the letters [-h]: after an
    error, or as the value of [-d], no usage is printed and the status is
    2. *)
Lemma help_not_always_reached :
  let after_error := ["siplus"; "a"; "b"; "-h"] in
  let as_value := ["siplus"; "-d"; "-h"] in
  "-h" ∈ after_error ∧ "-h" ∈ as_value ∧
  status (main friendly after_error initial) = Some 2%Z ∧
  inserted Cout (trace (main friendly after_error initial)) = [] ∧
  inserted Cerr (trace (main friendly after_error initial)) =
    ["error: "; "Unknown extra parameter b"; nl] ∧
  status (main friendly as_value initial) = Some 2%Z ∧
  inserted Cout (trace (main friendly as_value initial)) = [] ∧
  inserted Cerr (trace (main friendly as_value initial)) =
    ["error: "; "No input specified (-h for help)"; nl].
Proof. split_and!; [repeat constructor..|reflexivity|reflexivity|reflexivity|reflexivity|reflexivity|reflexivity]. Qed.

Lemma help_when_reached_witness :
  let r := main friendly ["siplus"; "-d"; "x"; "--help"; "-d"; "y"] initial in
  r.2 = Exited 0 ∧ status r = Some 0%Z ∧
  inserted Cout (trace r) = help_lines ++ [nl] ∧
  inserted Cerr (trace r) = [] ∧ compilations (trace r) = [].
Proof.
  eapply (help_when_reached friendly "siplus" ["-d"; "x"] "--help" ["-d"; "y"]);
    reflexivity.
Defined.

Lemma duplicate_value_rejected_witness :
  let argv := ["siplus"; "-v"; "a=1"; "-v"; "a=2"] in
  ∃ s2, parse_args friendly argv initial = (s2, Threw "value a was already specified") ∧
        args (st_args s2) !! "a" = Some "1" ∧
        status (main friendly argv initial) = Some 2%Z.
Proof.
  exists (parse_loop friendly ["-v"; "a=1"] locals_init initial).1.
  exact (duplicate_value_rejected friendly "siplus" [] "-v" "a" "1" [] "-v" "2" []
           initial locals_init _ locals_init eq_refl eq_refl eq_refl eq_refl eq_refl).
Defined.

(** With neither a template nor a default, the one error raised is the one
    about the input. *)
Lemma missing_default_not_reported :
  parse_loop friendly (drop 1 ["siplus"]) locals_init initial =
    (initial, Returned locals_init) ∧
  default_specified locals_init = false ∧
  (parse_args friendly ["siplus"] initial).2 = Threw "No input specified (-h for help)" ∧
  (parse_args friendly ["siplus"] initial).2 ≠ Threw "No default value specified".
Proof. split_and!; [reflexivity..|discriminate]. Qed.

Lemma final_checks_in_order_witness :
  let l := {| input_specified := true; output_specified := false;
              default_specified := false |} in
  (input_specified l = false →
     (parse_args friendly ["siplus"; "Hello"] initial).2 =
       Threw "No input specified (-h for help)") ∧
  (input_specified l = true → default_specified l = false →
     (parse_args friendly ["siplus"; "Hello"] initial).2 =
       Threw "No default value specified") ∧
  ((parse_args friendly ["siplus"; "Hello"] initial).2 = Returned tt ↔
     input_specified l = true ∧ default_specified l = true).
Proof.
  eapply (final_checks_in_order friendly ["siplus"; "Hello"] initial). reflexivity.
Defined.

Lemma bare_token_becomes_template_witness :
  parse_loop friendly ["--foo"; "-d"; "x"] locals_init initial =
    parse_loop friendly ["-d"; "x"] (set_input_specified locals_init)
      {| st_args := set_input (st_args initial) "--foo"; st_trace := st_trace initial |} ∧
  ∃ pre post l0,
    ["a"; "-d"; "x"; "-x"] = pre ++ "-x" :: post ∧
    parse_loop friendly pre locals_init initial =
      ((parse_loop friendly ["a"; "-d"; "x"] locals_init initial).1, Returned l0) ∧
    input_specified l0 = true ∧ is_flag "-x" = false.
Proof.
  split.
  - apply (proj1 (bare_token_becomes_template friendly)); reflexivity.
  - apply (proj2 (bare_token_becomes_template friendly) ["a"; "-d"; "x"; "-x"]
             locals_init initial). reflexivity.
Defined.

Lemma unreadable_input_is_empty_template_witness :
  read_file hostile "missing.txt" initial =
    ({| st_args := st_args initial; st_trace := [EvRead "missing.txt" false] |},
     Returned "") ∧
  parse_loop hostile ["-i"; "missing.txt"; "-d"; "x"] locals_init initial =
    parse_loop hostile ["-d"; "x"] (set_input_specified locals_init)
      {| st_args := set_input (st_args initial) "";
         st_trace := [EvRead "missing.txt" false] |}.
Proof.
  apply (unreadable_input_is_empty_template hostile "-i" "missing.txt" ["-d"; "x"]
           locals_init initial); reflexivity.
Defined.

(** The run goes on to compile the empty template. *)
Lemma unreadable_input_run :
  Sample.run hostile ["siplus"; "-i"; "missing.txt"; "-d"; "x"] =
    ([EvRead "missing.txt" false; EvCompile "" []; EvRender;
      EvPut Cout "" true; EvFlush Cout true], Some 0%Z).
Proof. reflexivity. Qed.

(** The handler's status is the status of a template error. *)
Lemma signal_status_is_template_error_status :
  status (signal_handler friendly SIGSEGV initial) = Some 1%Z ∧
  status (signal_handler friendly SIGABRT initial) = Some 1%Z ∧
  status (main friendly ["siplus"; "{"; "-d"; "x"] initial) = Some 1%Z ∧
  status (main friendly ["siplus"; "{$x}"; "-d"; "x"] initial) = Some 1%Z.
Proof. split_and!; reflexivity. Qed.

Lemma signal_handler_exits_1_witness :
  SIGSEGV ∈ handled_signals ∧
  ∃ (m : M Z) evs,
    deliver friendly SIGSEGV = Some m ∧
    m initial = (add_events initial (evs ++ [EvStackTrace]), Exited 1) ∧
    puts_of Cout ["Signal "; pretty SIGSEGV; " caught. Death imminent."] evs ∧
    status (m initial) = Some 1%Z.
Proof.
  assert (SIGSEGV ∈ handled_signals) as Hin by (apply elem_of_cons; by left).
  split; [exact Hin|]. exact (signal_handler_exits_1 friendly SIGSEGV initial Hin).
Defined.

(** An output file that cannot be opened: the template is compiled and
    rendered, the text is lost, and the status is 0. *)
Lemma unwritable_output_run :
  let r := main hostile ["siplus"; "{.}"; "-d"; "w"; "-o"; "out.txt"] initial in
  opened (trace r) = [("out.txt", false)] ∧ status r = Some 0%Z ∧
  compilations (trace r) = [("{.}", [])] ∧ renderings (trace r) = [tt] ∧
  inserted Cerr (trace r) = [] ∧ written (File "out.txt") (trace r) = [].
Proof. split_and!; reflexivity. Qed.

Lemma failed_open_is_not_an_error_witness :
  let argv := ["siplus"; "{.}"; "-d"; "w"; "-o"; "out.txt"] in
  let r := main hostile argv initial in
  ∃ s1, parse_args hostile argv initial = (s1, Returned tt) ∧
        ("out.txt", false) ∈ opened (st_trace s1) ∧
        compilations (trace r) = [(input (st_args s1), globals_of (st_args s1))] ∧
        ∀ constructor text,
          get_interpolation (input (st_args s1)) (globals_of (st_args s1)) =
            Value constructor →
          construct_with constructor (default_value (st_args s1))
            (map_to_list (args (st_args s1))) = Value text →
          status r = Some 0%Z ∧ renderings (trace r) = [tt] ∧
          inserted (File "out.txt") (trace r) = [text] ∧
          written (File "out.txt") (trace r) = [] ∧
          inserted Cerr (trace r) = [].
Proof.
  intros argv r. eexists.
  assert (("out.txt", false) ∈
            opened (st_trace (parse_args hostile argv initial).1)) as Hin
    by (apply elem_of_cons; by left).
  split; [reflexivity|]. split; [exact Hin|].
  exact (failed_open_is_not_an_error hostile argv _ "out.txt" eq_refl Hin).
Defined.

Lemma owned_sink_released_once_witness :
  let argv := ["siplus"; "{.}"; "-d"; "w"; "-o"; "out.txt"] in
  let tr := trace (main full_disk argv initial) in
  (main full_disk argv initial).2 = Returned 0%Z ∧
  deletes tr = (opened tr).*1 ∧ length (opened tr) ≤ 1 ∧
  ∀ file ok, (file, ok) ∈ opened tr →
             ∃ tr', tr = tr' ++ [EvDelete file] ∧ deletes tr' = [].
Proof.
  intros argv tr. split; [reflexivity|].
  exact (owned_sink_released_once full_disk argv 0 eq_refl).
Defined.

(** The release also happens when the scan fails after the file was
    opened, and when the write fails; it does not happen when the usage is
    printed, since [std::exit] does not unwind. *)
Lemma release_on_other_paths :
  Sample.run friendly ["siplus"; "-o"; "out.txt"; "-d"] =
    ([EvNew "out.txt" true; EvPut Cerr "error: " true;
      EvPut Cerr "expected argument for -d" true; EvPut Cerr nl true;
      EvFlush Cerr true; EvDelete "out.txt"], Some 2%Z) ∧
  Sample.run full_disk ["siplus"; "{.}"; "-d"; "w"; "-o"; "out.txt"] =
    ([EvNew "out.txt" true; EvCompile "{.}" []; EvRender;
      EvPut (File "out.txt") "w" false; EvFlush (File "out.txt") false;
      EvDelete "out.txt"], Some 0%Z) ∧
  deletes (Sample.run friendly ["siplus"; "-o"; "out.txt"; "-h"]).1 = [] ∧
  (Sample.run friendly ["siplus"; "-o"; "out.txt"; "-h"]).2 = Some 0%Z.
Proof. split_and!; reflexivity. Qed.

(** ** Further runs *)

Lemma accepted_vectors_are_valid_witness :
  let argv := ["siplus"; "Hello"; "-d"; "x"; "-v"; "a=1"] in
  ∃ its, drop 1 argv = tokens its ∧ valid its ∧
         args (st_args (parse_args friendly argv initial).1) = bound its.
Proof.
  exact (accepted_vectors_are_valid friendly
           ["siplus"; "Hello"; "-d"; "x"; "-v"; "a=1"] _ eq_refl).
Defined.

Lemma usage_errors_are_known_witness :
  let argv := ["siplus"; "-v"; "novalue"] in
  let what := "Could not find value in novalue" in
  what ∈ ["input was already specified, -i was unexpected";
          "expected argument for -i"; "expected argument for -v";
          "default value already specified"; "expected argument for -d";
          "output already specified"; "expected argument for -o";
          "No input specified (-h for help)"; "No default value specified"] ∨
  (∃ arg, arg ∈ drop 1 argv ∧ find "="%char arg = None ∧
          what = "Could not find value in " +:+ arg) ∨
  (∃ arg idx, arg ∈ drop 1 argv ∧ find "="%char arg = Some idx ∧
              what = "value " +:+ substr arg 0 idx +:+ " was already specified") ∨
  (∃ val, val ∈ drop 1 argv ∧ is_flag val = false ∧
          what = "Unknown extra parameter " +:+ val).
Proof.
  exact (usage_errors_are_known friendly ["siplus"; "-v"; "novalue"]
           (parse_args friendly ["siplus"; "-v"; "novalue"] initial).1
           "Could not find value in novalue" eq_refl).
Defined.

Lemma first_setting_wins_witness :
  let pre := ["Hello"; "-d"; "x"] in
  let s := (parse_loop friendly pre locals_init initial).1 in
  let l := {| input_specified := true; output_specified := false;
              default_specified := true |} in
  let s1 := (parse_args friendly ("siplus" :: pre ++ ["-d"; "y"]) initial).1 in
  (input_specified l = true → input (st_args s1) = input (st_args s)) ∧
  (default_specified l = true →
     default_value (st_args s1) = default_value (st_args s)) ∧
  (output_specified l = true → out (st_args s1) = out (st_args s)).
Proof.
  exact (first_setting_wins friendly "siplus" ["Hello"; "-d"; "x"] ["-d"; "y"]
           _ _ eq_refl).
Defined.

Lemma missing_argument_witness :
  let pre := ["Hello"] in
  let val := "--default" in
  let s := (parse_loop friendly pre locals_init initial).1 in
  let l := {| input_specified := true; output_specified := false;
              default_specified := false |} in
  let r := parse_args friendly ("siplus" :: pre ++ [val]) initial in
  (is_input val = true → input_specified l = false →
     r = (s, Threw "expected argument for -i")) ∧
  (is_val val = true → r = (s, Threw "expected argument for -v")) ∧
  (is_default val = true → default_specified l = false →
     r = (s, Threw "expected argument for -d")) ∧
  (is_output val = true → output_specified l = false →
     r = (s, Threw "expected argument for -o")) ∧
  (is_input val = true ∨ is_val val = true ∨ is_default val = true ∨
   is_output val = true →
     status (main friendly ("siplus" :: pre ++ [val]) initial) = Some 2%Z).
Proof.
  exact (missing_argument friendly "siplus" ["Hello"] "--default" _ _ eq_refl).
Defined.

Lemma repeated_option_witness :
  let pre := ["Hello"] in
  let val := "--input" in
  let rest := ["hello.txt"] in
  let s := (parse_loop friendly pre locals_init initial).1 in
  let l := {| input_specified := true; output_specified := false;
              default_specified := false |} in
  let r := parse_args friendly ("siplus" :: pre ++ val :: rest) initial in
  (is_input val = true → input_specified l = true →
     r = (s, Threw "input was already specified, -i was unexpected")) ∧
  (is_flag val = false → input_specified l = true →
     r = (s, Threw ("Unknown extra parameter " +:+ val))) ∧
  (is_default val = true → default_specified l = true →
     r = (s, Threw "default value already specified")) ∧
  (is_output val = true → output_specified l = true →
     r = (s, Threw "output already specified")).
Proof.
  exact (repeated_option friendly "siplus" ["Hello"] "--input" ["hello.txt"]
           _ _ eq_refl).
Defined.

Lemma output_to_one_sink_witness :
  let argv := ["siplus"; "{.}"; "-d"; "w"; "-o"; "out.txt"] in
  let code := 0%Z in
  let tr := trace (main friendly argv initial) in
  (code ≠ 0%Z → inserted Cout tr = [] ∧ ∀ file, inserted (File file) tr = []) ∧
  (code = 0%Z →
     ∃ text,
       (opened tr = [] ∧ inserted Cout tr = [text] ∧
        ∀ file, inserted (File file) tr = []) ∨
       (∃ file ok, opened tr = [(file, ok)] ∧ inserted (File file) tr = [text] ∧
                   inserted Cout tr = [] ∧
                   ∀ file', file' ≠ file → inserted (File file') tr = [])).
Proof.
  exact (output_to_one_sink friendly
           ["siplus"; "{.}"; "-d"; "w"; "-o"; "out.txt"] 0 eq_refl).
Defined.


(** The file is opened although the vector then fails for want of the
    argument of [-d]. *)
Lemma output_file_opened_at_once_witness :
  let argv := ["siplus"; "Hello"; "-o"; "out.txt"; "-d"] in
  let tr := trace (main hostile argv initial) in
  opened tr = [("out.txt", false)] ∧
  ∀ code, (main hostile argv initial).2 = Returned code → deletes tr = ["out.txt"].
Proof.
  exact (output_file_opened_at_once hostile "siplus" ["Hello"] "-o" "out.txt" ["-d"]
           _ _ eq_refl eq_refl eq_refl).
Defined.

Lemma valid_vector_fills_model_witness :
  ∃ s1,
    parse_args friendly ("siplus" :: tokens greeting) initial = (s1, Returned tt) ∧
    (∀ text, Template text ∈ greeting → input (st_args s1) = text) ∧
    (∀ flag file, InputFile flag file ∈ greeting →
       ∃ tr, input (st_args s1) = default "" (ifstream_contents friendly tr file)) ∧
    (∀ flag value, DefaultValue flag value ∈ greeting →
       default_value (st_args s1) = make_data value) ∧
    (∀ flag file, OutputFile flag file ∈ greeting →
       ∃ ok, out (st_args s1) =
               Some {| ostream_ := {| os_target := File file; os_good := ok |};
                       deleter_ := Some file |}) ∧
    (count gives_output greeting = 0 →
       out (st_args s1) = Some {| ostream_ := cout; deleter_ := None |}).
Proof. exact (valid_vector_fills_model friendly "siplus" greeting greeting_valid). Defined.

(** The disk is full: the text is lost, and the run still returns 0. *)
Lemma write_failure_is_silent_witness :
  let argv := ["siplus"; "{.}"; "-d"; "w"; "-o"; "out.txt"] in
  let s1 := (parse_args full_disk argv initial).1 in
  ∃ sw,
    out (st_args s1) = Some sw ∧
    let t := os_target (ostream_ sw) in
    let requests := [EvCompile (input (st_args s1)) (globals_of (st_args s1)); EvRender] in
    let ok := os_good (ostream_ sw) &&
              ostream_accepts full_disk (st_trace s1 ++ requests) t "w" in
    let tr := trace (main full_disk argv initial) in
    status (main full_disk argv initial) = Some 0%Z ∧ inserted Cerr tr = [] ∧
    written t tr = (if ok then ["w"] else []) ∧
    EvFlush t ok ∈ tr.
Proof.
  exact (write_failure_is_silent full_disk
           ["siplus"; "{.}"; "-d"; "w"; "-o"; "out.txt"] _ "{.}" "w"
           eq_refl eq_refl eq_refl).
Defined.

End Runs.
